(** * Verification of the tree editor of memo.py (TreeModel / TreeCanvas)

    Two views of the same data are used below.

    - [Canvas]: the object graph the canvas handlers work on.  Python
      dicts are objects with identity ([is]) and may be shared, so the
      forest is a heap of node cells addressed by [loc], each cell holding
      the node's ["id"] and its ["children"] list of addresses.  The other
      keys of a node dict (name, memo, x, y) are not read by the handlers
      modelled here, except through [==] in [list.remove], which is taken
      as a parameter [node_eq].
    - [Doc]: the JSON document view used by loading, [ensure_ids],
      saving, resetting and the undo/redo stacks, where nodes are plain
      JSON values (deep copies have no identity to preserve).

    Recursive traversals of the object graph take a [fuel] argument that
    plays the part of the interpreter's recursion limit: running out of
    fuel is a [RecursionError], i.e. an exception that aborts the handler
    with the state reached so far. *)

From Stdlib Require Import String Ascii ZArith List Bool Lia QArith PrimFloat.
From stdpp Require Import base gmap list strings.
Set Warnings "-register-all,-inexact-float".

Module Canvas.

Definition loc := nat.

(** A node dict as the canvas handlers see it. *)
Record node := mkNode { nid : option string; children : list loc }.

(** An overlay edge [[parent_id, child_id]]. *)
Definition edge := (string * string)%type.

Record snapshot := mkSnap {
  s_heap : gmap loc node;
  s_tree_data : list loc;
  s_extra_edges : list edge
}.

Record state := mkState {
  st_heap : gmap loc node;
  tree_data : list loc;
  extra_edges : list edge;
  undo_stack : list snapshot;
  redo_stack : list snapshot
}.

(** [copy.deepcopy({"tree_data": ..., "extra_edges": ...})]: the copy is
    a value no one else refers to, i.e. a snapshot of the current heap. *)
Definition snap (st : state) : snapshot :=
  mkSnap (st_heap st) (tree_data st) (extra_edges st).

(** [TreeModel.push_undo]. *)
Definition push_undo (st : state) : state :=
  mkState (st_heap st) (tree_data st) (extra_edges st)
          (undo_stack st ++ [snap st]) [].

Definition set_heap (st : state) (h : gmap loc node) : state :=
  mkState h (tree_data st) (extra_edges st) (undo_stack st) (redo_stack st).

Definition set_tree_data (st : state) (r : list loc) : state :=
  mkState (st_heap st) r (extra_edges st) (undo_stack st) (redo_stack st).

Definition set_extra_edges (st : state) (e : list edge) : state :=
  mkState (st_heap st) (tree_data st) e (undo_stack st) (redo_stack st).

(** [TreeModel.get_node_by_id]: depth-first, first match.  [None] is an
    exception, [Some None] is the Python [None] result. *)
Fixpoint get_node_by_id (fuel : nat) (h : gmap loc node) (target_id : string)
    (nodes : list loc) : option (option loc) :=
  match fuel with
  | O => None
  | S f =>
      (fix go (ns : list loc) : option (option loc) :=
         match ns with
         | [] => Some None
         | l :: rest =>
             match h !! l with
             | None => None
             | Some n =>
                 if bool_decide (nid n = Some target_id) then Some (Some l)
                 else match get_node_by_id f h target_id (children n) with
                      | None => None
                      | Some (Some r) => Some (Some r)
                      | Some None => go rest
                      end
             end
         end) nodes
  end.

(** [TreeModel.get_parent_recursive]: identity-based search below [nd]. *)
Fixpoint get_parent_recursive (fuel : nat) (h : gmap loc node) (nd target : loc)
    : option (option loc) :=
  match fuel with
  | O => None
  | S f =>
      match h !! nd with
      | None => None
      | Some n =>
          (fix go (cs : list loc) : option (option loc) :=
             match cs with
             | [] => Some None
             | c :: rest =>
                 if Nat.eqb c target then Some (Some nd)
                 else match get_parent_recursive f h c target with
                      | None => None
                      | Some (Some p) => Some (Some p)
                      | Some None => go rest
                      end
             end) (children n)
      end
  end.

(** [TreeModel.get_parent_in_forest] / [TreeModel.get_parent]. *)
Fixpoint get_parent_in_forest (fuel : nat) (h : gmap loc node) (forest : list loc)
    (target : loc) : option (option loc) :=
  match forest with
  | [] => Some None
  | n :: rest =>
      if Nat.eqb n target then Some None
      else match get_parent_recursive fuel h n target with
           | None => None
           | Some (Some p) => Some (Some p)
           | Some None => get_parent_in_forest fuel h rest target
           end
  end.

Definition get_parent (fuel : nat) (st : state) (target : loc) : option (option loc) :=
  get_parent_in_forest fuel (st_heap st) (tree_data st) target.

(** [TreeCanvas.is_descendant parent candidate]; the candidate may be
    Python's [None] (an id that resolved to no node). *)
Fixpoint is_descendant (fuel : nat) (h : gmap loc node) (parent : loc)
    (candidate : option loc) : option bool :=
  match fuel with
  | O => None
  | S f =>
      if bool_decide (Some parent = candidate) then Some true
      else match h !! parent with
           | None => None
           | Some n =>
               (fix go (cs : list loc) : option bool :=
                  match cs with
                  | [] => Some false
                  | c :: rest =>
                      match is_descendant f h c candidate with
                      | None => None
                      | Some true => Some true
                      | Some false => go rest
                      end
                  end) (children n)
           end
  end.

Section Handlers.

(** Python's [==] on two node dicts (deep comparison); [list.remove]
    tries identity first, so only its behaviour on distinct objects is
    left open. *)
Variable node_eq : loc -> loc -> bool.

(** [list.remove(x)]: drops the first element that is [x] or [== x];
    [None] is the [ValueError]. *)
Fixpoint list_remove (x : loc) (l : list loc) : option (list loc) :=
  match l with
  | [] => None
  | y :: rest =>
      if Nat.eqb y x || node_eq y x then Some rest
      else option_map (cons y) (list_remove x rest)
  end.

(** Detaching [x] from its owner, the part shared by [delete_node] and
    both branches of [on_node_release] that remove a node; a
    [ValueError] is caught by [except ValueError: pass]. *)
Definition detach (st : state) (parent : option loc) (x : loc) : state :=
  match parent with
  | Some p =>
      match st_heap st !! p with
      | Some pn =>
          match list_remove x (children pn) with
          | Some cs => set_heap st (<[p := mkNode (nid pn) cs]> (st_heap st))
          | None => st
          end
      | None => st
      end
  | None =>
      match list_remove x (tree_data st) with
      | Some r => set_tree_data st r
      | None => st
      end
  end.

(** The overlay filter of [delete_node]. *)
Definition not_incident (i : string) (e : edge) : bool :=
  negb (String.eqb (fst e) i) && negb (String.eqb (snd e) i).

(** [TreeCanvas.delete_node] (context menu "delete"). *)
Definition delete_node (fuel : nat) (st : state) (x : loc) : state :=
  let st1 := push_undo st in
  match get_parent fuel st1 x with
  | None => st1
  | Some par =>
      let st2 := detach st1 par x in
      match st_heap st2 !! x with
      | Some n =>
          match nid n with
          | Some i => set_extra_edges st2 (List.filter (not_incident i) (extra_edges st2))
          | None => st2
          end
      | None => st2
      end
  end.

(** The trash branch of [TreeCanvas.on_node_release]. *)
Definition trash_delete (fuel : nat) (st : state) (x : loc) : state :=
  let st1 := push_undo st in
  match get_parent fuel st1 x with
  | None => st1
  | Some par => detach st1 par x
  end.

(** The target search of [on_node_release]: the first overlapping node
    item whose node is neither the dragged node nor one of its
    descendants; [hits] are the ids [canvas_node_map] gives for the
    overlapping items, in order.  [None] is an exception. *)
Fixpoint find_target (fuel : nat) (st : state) (x : loc) (hits : list string)
    : option (option loc) :=
  match hits with
  | [] => Some None
  | i :: rest =>
      match get_node_by_id fuel (st_heap st) i (tree_data st) with
      | None => None
      | Some cand =>
          if bool_decide (cand <> Some x) then
            match is_descendant fuel (st_heap st) x cand with
            | None => None
            | Some false => Some cand
            | Some true => find_target fuel st x rest
            end
          else find_target fuel st x rest
      end
  end.

(** The reparent branch of [on_node_release]. *)
Definition reparent (fuel : nat) (st : state) (x t : loc) : state :=
  let st1 := push_undo st in
  match get_parent fuel st1 x with
  | None => st1
  | Some par =>
      let st2 := match par with Some _ => detach st1 par x | None => st1 end in
      match st_heap st2 !! t with
      | Some tn => set_heap st2 (<[t := mkNode (nid tn) (children tn ++ [x])]> (st_heap st2))
      | None => st2
      end
  end.

(** [TreeCanvas.on_node_release] for a press that grabbed node [x]:
    a click opens the memo editor and leaves the model alone. *)
Definition on_node_release (fuel : nat) (st : state) (x : loc) (dragging over_trash : bool)
    (hits : list string) : state :=
  if dragging && over_trash then trash_delete fuel st x
  else if dragging then
    match find_target fuel st x hits with
    | None => st
    | Some None => st
    | Some (Some t) => reparent fuel st x t
    end
  else st.

End Handlers.

(** Outcome notice of the pending-link press. *)
Inductive notice := Linked | SelfLoop | AlreadyLinked.

(** The pending-link block shared by [on_node_press] and
    [on_canvas_press]: [parent_id] is the id of the pressed node,
    [child_id] the id of the pending child. *)
Definition link_pending (st : state) (parent_id child_id : string) : state * notice :=
  if String.eqb parent_id child_id then (st, SelfLoop)
  else if existsb (fun e => String.eqb (fst e) parent_id && String.eqb (snd e) child_id)
                  (extra_edges st)
  then (st, AlreadyLinked)
  else let st1 := push_undo st in
       (set_extra_edges st1 (extra_edges st1 ++ [(parent_id, child_id)]), Linked).

(** Ownership edges of the object graph and their reachability. *)
Definition child_of (h : gmap loc node) (a b : loc) : Prop :=
  exists n, h !! a = Some n /\ In b (children n).

Definition reach (h : gmap loc node) : loc -> loc -> Prop := rtc (child_of h).

Definition acyclic (h : gmap loc node) : Prop :=
  forall a b, child_of h a b -> ~ reach h b a.

(** Number of copies of the edge [(a, b)] in an overlay. *)
Definition edge_count (a b : string) (l : list edge) : nat :=
  length (List.filter (fun e => String.eqb (fst e) a && String.eqb (snd e) b) l).

(** The scenario of the spec: root "1" with children "2" and "3", and
    the overlay edge (2, 3). *)
Definition demo_state : state :=
  mkState (list_to_map [(1, mkNode (Some "1") [2; 3]); (2, mkNode (Some "2") []);
                        (3, mkNode (Some "3") [])])
          [1] [("2", "3")] [] [].

(** A chain "1" -> "2" -> "3" with overlay edges (3, 1) and (2, 3). *)
Definition chain_state : state :=
  mkState (list_to_map [(1, mkNode (Some "1") [2]); (2, mkNode (Some "2") [3]);
                        (3, mkNode (Some "3") [])])
          [1] [("3", "1"); ("2", "3")] [] [].

(** [==] on distinct node dicts of these states: no two are equal. *)
Definition distinct_nodes : loc -> loc -> bool := fun _ _ => false.

(** The ids [delete_extra_parent] lists for a child id:
    [[edge[0] for edge in extra_edges if edge[1] == child_id]]. *)
Definition extra_parents (child_id : string) (l : list edge) : list string :=
  map fst (List.filter (fun e => String.eqb (snd e) child_id) l).

(** The confirmed removal of [delete_extra_parent]: [push_undo], then
    drop every copy of [[parent_id, child_id]]. *)
Definition remove_extra_edge (st : state) (parent_id child_id : string) : state :=
  let st1 := push_undo st in
  set_extra_edges st1
    (List.filter (fun e => negb (String.eqb (fst e) parent_id && String.eqb (snd e) child_id))
                 (extra_edges st1)).

Section ExtraParent.

(** Whether a node dict has a ["name"] key (not part of [node]). *)
Variable named : loc -> bool.

(** The confirmation step shared by both branches of
    [delete_extra_parent]: the dialog text reads [child_node['name']]
    and [parent_node['name']] of [get_node_by_id(parent_id)] before
    asking; a parent id that resolves to [None] raises [TypeError] there,
    as does a missing name ([KeyError]) or a [RecursionError]. *)
Definition confirm_remove_extra (fuel : nat) (st : state) (c : loc) (parent_id child_id : string)
    (confirm : bool) : state :=
  match get_node_by_id fuel (st_heap st) parent_id (tree_data st) with
  | Some (Some p) =>
      if named c && named p then
        if confirm then remove_extra_edge st parent_id child_id else st
      else st
  | _ => st
  end.

(** [TreeCanvas.delete_extra_parent child_node] for the node at [c]:
    [confirm] is the answer of the yes/no dialog, [pick] the listbox
    selection of the several-parents popup ([None] when nothing is
    selected).  Building the listbox looks every parent up, and a found
    parent's name is read for display. *)
Definition delete_extra_parent (fuel : nat) (st : state) (c : loc) (confirm : bool)
    (pick : option nat) : state :=
  match st_heap st !! c with
  | None => st
  | Some cn =>
      match nid cn with
      | None => st
      | Some child_id =>
          match extra_parents child_id (extra_edges st) with
          | [] => st
          | [parent_id] => confirm_remove_extra fuel st c parent_id child_id confirm
          | ps =>
              if forallb (fun i => match get_node_by_id fuel (st_heap st) i (tree_data st) with
                                   | None => false
                                   | Some None => true
                                   | Some (Some p) => named p
                                   end) ps
              then match pick with
                   | Some k =>
                       match nth_error ps k with
                       | Some parent_id => confirm_remove_extra fuel st c parent_id child_id confirm
                       | None => st
                       end
                   | None => st
                   end
              else st
          end
      end
  end.

End ExtraParent.

(** The overlay invariant: no self loop and no duplicated edge. *)
Definition overlay_ok (l : list edge) : Prop :=
  List.NoDup l /\ Forall (fun e => fst e <> snd e) l.

(** Two roots "1" (with child "2") and "3". *)
Definition two_roots_state : state :=
  mkState (list_to_map [(1, mkNode (Some "1") [2]); (2, mkNode (Some "2") []);
                        (3, mkNode (Some "3") [])])
          [1; 3] [("3", "2")] [] [].

(** Every node dict of these states has a name. *)
Definition all_named : loc -> bool := fun _ => true.

End Canvas.

(** * The JSON document view: [TreeModel] loading, ids, saving, history *)
Module Doc.

Local Open Scope string_scope.
Local Open Scope Z_scope.

(** A JSON value as [json.load] returns it (numbers are integers here:
    coordinates are carried along, never inspected). *)
Inductive json :=
| JNull
| JBool (b : bool)
| JNum (z : Z)
| JStr (s : string)
| JArr (l : list json)
| JObj (kv : list (string * json)).

(** Dict lookup, membership and item assignment (an existing key keeps
    its place, a new key goes last). *)
Fixpoint dict_get (k : string) (kv : list (string * json)) : option json :=
  match kv with
  | [] => None
  | (k', v) :: rest => if String.eqb k k' then Some v else dict_get k rest
  end.

Definition dict_has (k : string) (kv : list (string * json)) : bool :=
  match dict_get k kv with Some _ => true | None => false end.

Fixpoint dict_set (k : string) (v : json) (kv : list (string * json)) : list (string * json) :=
  match kv with
  | [] => [(k, v)]
  | (k', v') :: rest =>
      if String.eqb k k' then (k', v) :: rest else (k', v') :: dict_set k v rest
  end.

(** Python's [int()] on a string (CPython's [PyLong_FromUnicodeObject]).
    The document's strings are kept as their UTF-8 encoding (the file is
    read with encoding="utf-8"); [int()] works on their code points.
    CPython 3.11's limit of 4300 digits on int/str conversions is left
    out, for [int()] as for [str()]. *)
Definition byte_val (c : Ascii.ascii) : Z := Z.of_nat (Ascii.nat_of_ascii c).

Definition is_cont (c : Ascii.ascii) : bool := (128 <=? byte_val c) && (byte_val c <=? 191).

(** UTF-8 bytes to code points; [None] on a malformed sequence. *)
Fixpoint utf8_decode (cs : list Ascii.ascii) : option (list Z) :=
  match cs with
  | [] => Some []
  | c :: rest =>
      let b := byte_val c in
      if b <? 128 then option_map (cons b) (utf8_decode rest)
      else if (194 <=? b) && (b <=? 223) then
        match rest with
        | c2 :: rest2 =>
            if is_cont c2
            then option_map (cons ((b - 192) * 64 + (byte_val c2 - 128))) (utf8_decode rest2)
            else None
        | [] => None
        end
      else if (224 <=? b) && (b <=? 239) then
        match rest with
        | c2 :: c3 :: rest3 =>
            let cp := ((b - 224) * 64 + (byte_val c2 - 128)) * 64 + (byte_val c3 - 128) in
            if is_cont c2 && is_cont c3 && (2048 <=? cp)
            then option_map (cons cp) (utf8_decode rest3) else None
        | _ => None
        end
      else if (240 <=? b) && (b <=? 244) then
        match rest with
        | c2 :: c3 :: c4 :: rest4 =>
            let cp := (((b - 240) * 64 + (byte_val c2 - 128)) * 64 + (byte_val c3 - 128)) * 64
                      + (byte_val c4 - 128) in
            if is_cont c2 && is_cont c3 && is_cont c4 && (65536 <=? cp) && (cp <=? 1114111)
            then option_map (cons cp) (utf8_decode rest4) else None
        | _ => None
        end
      else None
  end.

(** [Py_UNICODE_ISSPACE] above the ASCII range. *)
Definition is_unicode_space (cp : Z) : bool :=
  existsb (Z.eqb cp)
    [133; 160; 5760; 8192; 8193; 8194; 8195; 8196; 8197; 8198; 8199; 8200; 8201; 8202;
     8232; 8233; 8239; 8287; 12288].

(** The zeros of the 66 runs of Unicode decimal digits (category Nd,
    Unicode 14.0 as in CPython 3.11); each run holds 0 to 9. *)
Definition decimal_zeros : list Z :=
  [48; 1632; 1776; 1984; 2406; 2534; 2662; 2790; 2918; 3046; 3174; 3302; 3430; 3558;
   3664; 3792; 3872; 4160; 4240; 6112; 6160; 6470; 6608; 6784; 6800; 6992; 7088; 7232;
   7248; 42528; 43216; 43264; 43472; 43504; 43600; 44016; 65296; 66720; 68912; 69734;
   69872; 69942; 70096; 70384; 70736; 70864; 71248; 71360; 71472; 71904; 72016; 72784;
   73040; 73120; 92768; 92864; 93008; 120782; 120792; 120802; 120812; 120822; 123200;
   123632; 125264; 130032].

(** [Py_UNICODE_TODECIMAL]. *)
Definition decimal_value (cp : Z) : option Z :=
  option_map (fun z => cp - z) (List.find (fun z => (z <=? cp) && (cp <? z + 10)) decimal_zeros).

(** [_PyUnicode_TransformDecimalAndSpaceToASCII]: code points below 127
    stay, other white space becomes a space, other decimal digits become
    their ASCII digit; anything else makes [int()] fail. *)
Fixpoint to_ascii_digits (cps : list Z) : option (list Ascii.ascii) :=
  match cps with
  | [] => Some []
  | cp :: rest =>
      let c := if cp <? 127 then Some (Ascii.ascii_of_nat (Z.to_nat cp))
               else if is_unicode_space cp then Some " "%char
               else option_map (fun d => Ascii.ascii_of_nat (Z.to_nat (48 + d))) (decimal_value cp) in
      match c, to_ascii_digits rest with
      | Some a, Some r => Some (a :: r)
      | _, _ => None
      end
  end.

(** [PyLong_FromString] with base 10 on the ASCII text: surrounding
    white space ([Py_ISSPACE]), an optional sign, decimal digits with
    single underscores between digits, nothing else. *)
Definition is_py_space (c : Ascii.ascii) : bool :=
  match Ascii.nat_of_ascii c with
  | 9 | 10 | 11 | 12 | 13 | 32 => true
  | _ => false
  end%nat.

Fixpoint drop_spaces (cs : list Ascii.ascii) : list Ascii.ascii :=
  match cs with
  | c :: rest => if is_py_space c then drop_spaces rest else cs
  | [] => []
  end.

Definition py_strip (cs : list Ascii.ascii) : list Ascii.ascii :=
  rev (drop_spaces (rev (drop_spaces cs))).

Fixpoint parse_digits (cs : list Ascii.ascii) (acc : Z) (after_digit : bool) : option Z :=
  match cs with
  | [] => if after_digit then Some acc else None
  | c :: rest =>
      let n := Z.of_nat (Ascii.nat_of_ascii c) in
      if (48 <=? n) && (n <=? 57) then parse_digits rest (acc * 10 + (n - 48)) true
      else if Ascii.eqb c "_"%char && after_digit then parse_digits rest acc false
      else None
  end.

Definition parse_int (cs : list Ascii.ascii) : option Z :=
  match py_strip cs with
  | c :: rest =>
      if Ascii.eqb c "-"%char then option_map Z.opp (parse_digits rest 0 false)
      else if Ascii.eqb c "+"%char then parse_digits rest 0 false
      else parse_digits (c :: rest) 0 false
  | [] => None
  end.

Definition int_of_string (s : string) : option Z :=
  match utf8_decode (list_ascii_of_string s) with
  | Some cps =>
      match to_ascii_digits cps with
      | Some cs => parse_int cs
      | None => None
      end
  | None => None
  end.

(** [int(node["id"])]; [None] is any exception (caught by the bare
    [except]). *)
Definition py_int (v : json) : option Z :=
  match v with
  | JStr s => int_of_string s
  | JNum z => Some z
  | JBool b => Some (if b then 1 else 0)
  | _ => None
  end.

(** [str(n)] for an integer. *)
Fixpoint digits_rev (fuel : nat) (n : Z) (acc : string) : string :=
  match fuel with
  | O => acc
  | S f =>
      let acc' := String (Ascii.ascii_of_nat (48 + Z.to_nat (n mod 10))) acc in
      if n <? 10 then acc' else digits_rev f (n / 10) acc'
  end.

Definition str_of_Z (z : Z) : string :=
  let fuel := S (S (Z.to_nat (Z.log2 (Z.abs z)))) in
  if z <? 0 then String.append "-" (digits_rev fuel (- z) "") else digits_rev fuel z "".

(** Iterating over a ["children"] value (or [tree_data]) and updating
    each element in place: a list is walked; an empty string or dict has
    no elements; any other value raises (a string's characters or a
    dict's keys are strings, on which every path of [ensure_ids] raises). *)
Fixpoint ensure_list (f : Z -> json -> option (Z * json)) (nx : Z) (l : list json)
    : option (Z * list json) :=
  match l with
  | [] => Some (nx, [])
  | v :: rest =>
      match f nx v with
      | None => None
      | Some (nx1, v') =>
          match ensure_list f nx1 rest with
          | None => None
          | Some (nx2, rest') => Some (nx2, v' :: rest')
          end
      end
  end.

Definition ensure_iterable (f : Z -> json -> option (Z * json)) (nx : Z) (v : json)
    : option (Z * json) :=
  match v with
  | JArr l =>
      match ensure_list f nx l with
      | Some (nx', l') => Some (nx', JArr l')
      | None => None
      end
  | JStr "" => Some (nx, v)
  | JObj [] => Some (nx, v)
  | _ => None
  end.

(** The ["id"] step of [ensure_ids] for one node. *)
Definition id_step (nx : Z) (kv : list (string * json)) : Z * list (string * json) :=
  match dict_get "id" kv with
  | None => (nx + 1, dict_set "id" (JStr (str_of_Z nx)) kv)
  | Some v =>
      match py_int v with
      | Some num => if nx <=? num then (num + 1, kv) else (nx, kv)
      | None => (nx, kv)
      end
  end.

(** [TreeModel.ensure_ids] on one node: threads [next_id]; [None] is an
    uncaught exception. *)
Fixpoint ensure_node (nx : Z) (v : json) {struct v} : option (Z * json) :=
  match v with
  | JObj kv =>
      let '(nx1, kv1) := id_step nx kv in
      let kv2 := if dict_has "memo" kv1 then kv1 else dict_set "memo" (JStr "") kv1 in
      match (fix find (l : list (string * json)) : option (option (Z * json)) :=
               match l with
               | [] => Some None
               | (k, c) :: rest =>
                   if String.eqb k "children" then
                     match ensure_iterable ensure_node nx1 c with
                     | None => None
                     | Some r => Some (Some r)
                     end
                   else find rest
               end) kv with
      | None => None
      | Some None => Some (nx1, JObj (dict_set "children" (JArr []) kv2))
      | Some (Some (nx2, c')) => Some (nx2, JObj (dict_set "children" c' kv2))
      end
  | _ => None
  end.

Definition ensure_ids (nx : Z) (nodes : json) : option (Z * json) :=
  ensure_iterable ensure_node nx nodes.

Definition root_name : string := "루트".

(** [{"name": "루트", "memo": "", "children": []}] *)
Definition default_root : json :=
  JObj [("name", JStr root_name); ("memo", JStr ""); ("children", JArr [])].

Record model := mkModel {
  tree_data : json;
  extra_edges : json;
  next_id : Z;
  undo_stack : list (json * json);
  redo_stack : list (json * json)
}.

(** [TreeModel.__init__]: [raw] is what [load_raw_data] read ([None]
    when the file is missing or is not valid JSON: both yield the
    default forest).  [None] as a result is an uncaught exception. *)
Definition init_model (raw : option json) : option model :=
  let data := match raw with Some d => d | None => JArr [default_root] end in
  let '(td, ee) :=
    match data with
    | JObj kv =>
        match dict_get "tree_data" kv with
        | Some t => (t, match dict_get "extra_edges" kv with Some e => e | None => JArr [] end)
        | None => (JArr [default_root], JArr [])
        end
    | JArr _ => (data, JArr [])
    | _ => (JArr [default_root], JArr [])
    end in
  match ensure_ids 1 td with
  | Some (nx, td') => Some (mkModel td' ee nx [] [])
  | None => None
  end.

(** [TreeModel.save_tree]: the document written; [json.load] of what
    [json.dump] wrote gives this value back. *)
Definition save_tree (m : model) : json :=
  JObj [("tree_data", tree_data m); ("extra_edges", extra_edges m)].

(** Reading the saved document back: a new [TreeModel] on that file. *)
Definition load_saved (m : model) : option model := init_model (Some (save_tree m)).

(** [TreeModel.push_undo] (a deep copy is the value itself). *)
Definition push_undo (m : model) : model :=
  mkModel (tree_data m) (extra_edges m) (next_id m)
          (undo_stack m ++ [(tree_data m, extra_edges m)]) [].

(** The notices of [undo]/[redo] on an empty stack. *)
Inductive notice := NothingToUndo | NothingToRedo.

(** [TreeModel.undo]: the success flag, the notice shown, the new model. *)
Definition undo (m : model) : bool * option notice * model :=
  match rev (undo_stack m) with
  | (t, e) :: rest =>
      (true, None,
       mkModel t e (next_id m) (rev rest) (redo_stack m ++ [(tree_data m, extra_edges m)]))
  | [] => (false, Some NothingToUndo, m)
  end.

(** [TreeModel.redo]. *)
Definition redo (m : model) : bool * option notice * model :=
  match rev (redo_stack m) with
  | (t, e) :: rest =>
      (true, None,
       mkModel t e (next_id m) (undo_stack m ++ [(tree_data m, extra_edges m)]) (rev rest))
  | [] => (false, Some NothingToRedo, m)
  end.

(** A mutation of the forest, the overlay and the counter, leaving the
    history stacks alone (the part of a handler after its [push_undo]). *)
Definition mutate (op : json * json * Z -> json * json * Z) (m : model) : model :=
  let '(t, e, nx) := op (tree_data m, extra_edges m, next_id m) in
  mkModel t e nx (undo_stack m) (redo_stack m).

(** [TreeViewPanel.reset_tree], once confirmed. *)
Definition reset_tree (m : model) : model :=
  let m1 := push_undo m in
  mkModel (JArr [default_root]) (JArr []) (next_id m1) (undo_stack m1) (redo_stack m1).

(** The ["id"] entries of every node of a forest, depth first ([None]
    for a node without one). *)
Fixpoint node_ids (v : json) : list (option json) :=
  match v with
  | JObj kv =>
      dict_get "id" kv ::
      (fix kids (l : list (string * json)) : list (option json) :=
         match l with
         | [] => []
         | (k, c) :: rest => if String.eqb k "children" then node_ids c else kids rest
         end) kv
  | JArr l => flat_map node_ids l
  | _ => []
  end.

(** A legacy document whose first node has no id and whose second
    node carries id "1". *)
Definition mixed_doc : json :=
  JArr [JObj [("name", JStr "a"); ("memo", JStr ""); ("children", JArr [])];
        JObj [("id", JStr "1"); ("name", JStr "b"); ("memo", JStr ""); ("children", JArr [])]].

(** The model after starting without a file and pressing reset. *)
Definition after_reset : option model := option_map reset_tree (init_model None).

(** A node as [ensure_ids] leaves it: a dict with an ["id"], a
    ["memo"] and a ["children"] value that iterates over such nodes. *)
Fixpoint wf_node (v : json) : bool :=
  match v with
  | JObj kv =>
      dict_has "id" kv && dict_has "memo" kv &&
      (fix kids (l : list (string * json)) : bool :=
         match l with
         | [] => false
         | (k, c) :: rest =>
             if String.eqb k "children" then
               match c with
               | JArr cs => forallb wf_node cs
               | JStr "" => true
               | JObj [] => true
               | _ => false
               end
             else kids rest
         end) kv
  | _ => false
  end.

(** A ["children"] value or a forest made of such nodes. *)
Definition wf_iter (v : json) : bool :=
  match v with
  | JArr cs => forallb wf_node cs
  | JStr "" => true
  | JObj [] => true
  | _ => false
  end.

(** An ["id"] entry whose [int()] value, if it has one, is below [nx]. *)
Definition id_below (nx : Z) (o : option json) : bool :=
  match o with
  | Some j => match py_int j with Some k => k <? nx | None => true end
  | None => true
  end.

Definition ids_below (nx : Z) (v : json) : bool := forallb (id_below nx) (node_ids v).

(** The shape [ensure_ids] gives a loaded model: a well-formed forest
    and a counter above every numeric id. *)
Definition ids_ok (m : model) : bool :=
  wf_iter (tree_data m) && ids_below (next_id m) (tree_data m).

(** The dict built by [TreeViewPanel.add_node] and
    [TreeCanvas.add_child_node]. *)
Definition new_node (name : string) (nx : Z) : json :=
  JObj [("name", JStr name); ("memo", JStr ""); ("children", JArr []); ("id", JStr (str_of_Z nx))].

(** [TreeViewPanel.add_node] with nothing selected in the tree view:
    [name] is the dialog's answer ([None] when cancelled).  The snapshot
    is pushed before the dialog; [tree_data.append] raises on a forest
    that is not a list, after the counter has moved. *)
Definition add_root_node (m : model) (name : option string) : model :=
  let m1 := push_undo m in
  match name with
  | None | Some "" => m1
  | Some nm =>
      let nx := next_id m1 in
      match tree_data m1 with
      | JArr l => mkModel (JArr (l ++ [new_node nm nx])) (extra_edges m1) (nx + 1)
                          (undo_stack m1) (redo_stack m1)
      | _ => mkModel (tree_data m1) (extra_edges m1) (nx + 1) (undo_stack m1) (redo_stack m1)
      end
  end.

(** [TreeModel.count_leaves]: [None] is an exception ([.get] on a
    non-dict, iterating a non-iterable). *)
Fixpoint count_leaves (v : json) : option Z :=
  match v with
  | JObj kv =>
      (fix go (l : list (string * json)) : option Z :=
         match l with
         | [] => Some 1
         | (k, c) :: rest =>
             if String.eqb k "children" then
               match c with
               | JNull | JBool false | JNum 0 | JStr "" | JArr [] | JObj [] => Some 1
               | JArr cs =>
                   (fix sum (xs : list json) : option Z :=
                      match xs with
                      | [] => Some 0
                      | x :: r =>
                          match count_leaves x with
                          | None => None
                          | Some a => match sum r with None => None | Some b => Some (a + b) end
                          end
                      end) cs
               | _ => None
               end
             else go rest
         end) kv
  | _ => None
  end.

End Doc.

(** * The view transform of [TreeCanvas.zoom] *)
Module View.

Section Zoom.

(** The number type of canvas coordinates and its operations. *)
Variable F : Type.
Variables (add sub mul : F -> F -> F).

(** Canvas state touched by [zoom]: [current_scale] and the coordinates
    of every item tagged node_group, plus, arrow_line or extra_arrow. *)
Record view := mkView { current_scale : F; coords : list (F * F) }.

(** Tk's [canvas scale tag x y f f] on one coordinate pair:
    [origin + f * (coord - origin)]. *)
Definition scale_point (x y f : F) (c : F * F) : F * F :=
  (add x (mul f (sub (fst c) x)), add y (mul f (sub (snd c) y))).

(** The body of [TreeCanvas.zoom] once [scale_factor] and the canvas
    point [(x, y)] are known. *)
Definition zoom_at (x y f : F) (v : view) : view :=
  mkView (mul (current_scale v) f) (map (scale_point x y f) (coords v)).

(** The attributes [zoom] reads from the Tk event: [delta] ([None]
    when the event object has no such attribute) and [num] ([None] when
    it is not an integer, as tkinter's "??"). *)
Record wheel := mkWheel { delta : option Z; num : option Z }.

Variables (zoom_in zoom_out : F).

(** [scale_factor] as chosen by [TreeCanvas.zoom]; [None] is the early
    [return]. *)
Definition scale_factor (ev : wheel) : option F :=
  match delta ev with
  | Some d => Some (if Z.ltb 0 d then zoom_in else zoom_out)
  | None =>
      match num ev with
      | Some n => if Z.eqb n 4 then Some zoom_in else if Z.eqb n 5 then Some zoom_out else None
      | None => None
      end
  end.

Definition zoom (x y : F) (ev : wheel) (v : view) : view :=
  match scale_factor ev with
  | Some f => zoom_at x y f v
  | None => v
  end.

End Zoom.

Arguments mkView {F}.
Arguments current_scale {F}.
Arguments coords {F}.

(** The events tkinter delivers to the three bindings of [zoom]: its
    [Event] always has a [delta] (set to 0 when Tk gives none), so the
    [num] branches of [zoom] are never taken. <MouseWheel> (Windows,
    macOS) carries the wheel delta and num "??"; the X11 <Button-4> and
    <Button-5> events carry delta 0 and their button number. *)
Definition mouse_wheel (d : Z) : wheel := mkWheel (Some d) None.
Definition x11_button (n : Z) : wheel := mkWheel (Some 0%Z) (Some n).

(** The code's numbers: IEEE binary64 floats (Python floats and Tk canvas
    coordinates). *)
Definition fzoom_at := zoom_at float PrimFloat.add PrimFloat.sub PrimFloat.mul.
Definition fzoom := zoom float PrimFloat.add PrimFloat.sub PrimFloat.mul 1.1%float 0.9%float.
Definition initial_fview : view float := mkView 1.0%float [].

(** Exact rational arithmetic, for comparison. *)
Definition qzoom_at := zoom_at Q Qplus Qminus Qmult.

(** [zoom] in exact rational arithmetic with the code's factors. *)
Definition qzoom := zoom Q Qplus Qminus Qmult (11 # 10) (9 # 10).

End View.

Module CanvasFacts.
Import Canvas.

Lemma reach_step_l h a b c : child_of h a b -> reach h b c -> reach h a c.
Proof. intros. eapply rtc_l; eauto. Qed.


Lemma reach_sub (h1 h2 : gmap loc node) :
  (forall a b, child_of h1 a b -> child_of h2 a b) ->
  forall a b, reach h1 a b -> reach h2 a b.
Proof.
  intros Hsub a b Hr. induction Hr as [|a b c Hab _ IH]; [apply rtc_refl|].
  eapply rtc_l; [apply Hsub; exact Hab | exact IH].
Qed.


Lemma is_descendant_sound f h p d :
  is_descendant f h p (Some d) = Some false -> ~ reach h p d.
Proof.
  intros H Hr. revert f H. induction Hr as [p|p q d Hpq Hqd IH]; intros f H.
  - destruct f as [|f]; simpl in H; [discriminate|].
    rewrite bool_decide_true in H by reflexivity. discriminate.
  - destruct f as [|f]; simpl in H; [discriminate|].
    case_bool_decide; [discriminate|].
    destruct Hpq as [n [Hn Hin]]. rewrite Hn in H.
    revert H Hin. generalize (children n) as cs.
    induction cs as [|c cs IHcs]; intros H Hin; [destruct Hin|].
    destruct (is_descendant f h c (Some d)) as [[|]|] eqn:Ec; try discriminate.
    destruct Hin as [<- | Hin]; [exact (IH f Ec) | exact (IHcs H Hin)].
Qed.

Section WithEq.
Variable node_eq : loc -> loc -> bool.

Lemma list_remove_incl x l l' :
  list_remove node_eq x l = Some l' -> forall b, In b l' -> In b l.
Proof.
  revert l'. induction l as [|y l IH]; intros l' H b Hb; simpl in H; [discriminate|].
  destruct (Nat.eqb y x || node_eq y x).
  - injection H as <-. right. exact Hb.
  - destruct (list_remove node_eq x l) as [r|] eqn:Er; simpl in H; [|discriminate].
    injection H as <-. destruct Hb as [<- | Hb]; [left; reflexivity | right; eapply IH; eauto].
Qed.

Lemma detach_child_of st par x a b :
  child_of (st_heap (detach node_eq st par x)) a b -> child_of (st_heap st) a b.
Proof.
  unfold detach. intros Hc.
  destruct par as [p|]; [|destruct (list_remove node_eq x (tree_data st)); exact Hc].
  destruct (st_heap st !! p) as [pn|] eqn:Ep; [|exact Hc].
  destruct (list_remove node_eq x (children pn)) as [cs|] eqn:Er; [|exact Hc].
  destruct Hc as [n [Hn Hin]]; simpl in Hn.
  destruct (decide (a = p)) as [->|Hne].
  - rewrite lookup_insert_eq in Hn. injection Hn as <-.
    exists pn. split; [exact Ep | eapply list_remove_incl; eauto].
  - rewrite lookup_insert_ne in Hn by congruence. exists n. split; assumption.
Qed.

Lemma detach_nid st par x y n :
  st_heap st !! y = Some n ->
  exists n', st_heap (detach node_eq st par x) !! y = Some n' /\ nid n' = nid n.
Proof.
  intros Hy. unfold detach.
  destruct par as [p|]; [|destruct (list_remove node_eq x (tree_data st)); eauto].
  destruct (st_heap st !! p) as [pn|] eqn:Ep; [|eauto].
  destruct (list_remove node_eq x (children pn)) as [cs|]; [|eauto]. simpl.
  destruct (decide (y = p)) as [->|Hne].
  - rewrite lookup_insert_eq. rewrite Ep in Hy. injection Hy as <-. eauto.
  - rewrite lookup_insert_ne by congruence. eauto.
Qed.

Lemma detach_acyclic st par x :
  acyclic (st_heap st) -> acyclic (st_heap (detach node_eq st par x)).
Proof.
  intros Hac a b Hab Hba. apply (Hac a b).
  - eapply detach_child_of; eauto.
  - eapply reach_sub; [|exact Hba]. intros. eapply detach_child_of; eauto.
Qed.




End WithEq.

End CanvasFacts.

Module CanvasClaims.
Import Canvas CanvasFacts.

Lemma existsb_filter_nil {A} (p : A -> bool) (l : list A) :
  existsb p l = false -> List.filter p l = [].
Proof.
  induction l as [|y l IH]; simpl; [reflexivity|].
  destruct (p y); [discriminate | exact IH].
Qed.

Lemma existsb_filter_length {A} (p : A -> bool) (l : list A) :
  existsb p l = true -> 1 <= length (List.filter p l).
Proof.
  induction l as [|y l IH]; simpl; [discriminate|].
  destruct (p y); simpl; [lia | exact IH].
Qed.

Lemma detach_extra_edges node_eq st par x :
  extra_edges (detach node_eq st par x) = extra_edges st.
Proof.
  unfold detach. destruct par as [p|].
  - destruct (st_heap st !! p); [|reflexivity].
    destruct (list_remove node_eq x _); reflexivity.
  - destruct (list_remove node_eq x (tree_data st)); reflexivity.
Qed.

(** C1 (failing input).  Dragging node "2" of the spec scenario onto the
    trash removes it from the tree but keeps the overlay edge (2, 3);
    the context-menu delete of the same node drops that edge. *)
Lemma trash_release_keeps_incident_edge :
  st_heap (on_node_release distinct_nodes 10 demo_state 2 true true []) !! 1
    = Some (mkNode (Some "1") [3]) /\
  extra_edges (on_node_release distinct_nodes 10 demo_state 2 true true [])
    = [("2", "3")] /\
  extra_edges (delete_node distinct_nodes 10 demo_state 2) = [].
Proof. split; [|split]; vm_compute; reflexivity. Qed.



(** C5.  A self-loop link is refused without any change; linking
    (a, b) twice, from an overlay holding that edge at most once, leaves
    exactly one copy and the second attempt changes nothing. *)
Theorem link_pending_self_loop_and_duplicate st a b :
  a <> b -> edge_count a b (extra_edges st) <= 1 ->
  link_pending st a a = (st, SelfLoop) /\
  (let st1 := fst (link_pending st a b) in
   link_pending st1 a b = (st1, AlreadyLinked) /\
   edge_count a b (extra_edges st1) = 1).
Proof.
  intros Hab Hc. split.
  { unfold link_pending. rewrite String.eqb_refl. reflexivity. }
  unfold edge_count in *. unfold link_pending.
  assert (Hne : String.eqb a b = false) by (apply String.eqb_neq; exact Hab).
  rewrite Hne.
  destruct (existsb (fun e => String.eqb (fst e) a && String.eqb (snd e) b) (extra_edges st))
    eqn:E; simpl.
  - rewrite E. split; [reflexivity|].
    pose proof (existsb_filter_length _ _ E). lia.
  - assert (Hin : existsb (fun e => String.eqb (fst e) a && String.eqb (snd e) b)
                    (extra_edges st ++ [(a, b)]) = true).
    { rewrite existsb_app. simpl. rewrite !String.eqb_refl. apply orb_true_r. }
    rewrite Hin. split; [reflexivity|].
    rewrite List.filter_app, length_app, (existsb_filter_nil (A:=edge) _ _ E). simpl.
    rewrite !String.eqb_refl. reflexivity.
Qed.

Lemma link_pending_self_loop_and_duplicate_witness :
  link_pending demo_state "2" "2" = (demo_state, SelfLoop) /\
  (let st1 := fst (link_pending demo_state "2" "3") in
   link_pending st1 "2" "3" = (st1, AlreadyLinked) /\
   edge_count "2" "3" (extra_edges st1) = 1).
Proof.
  apply link_pending_self_loop_and_duplicate; [discriminate | vm_compute; lia].
Defined.

(** C9.  The context-menu delete of [x] keeps every overlay edge whose
    two ends differ from the id of [x], descendants' edges included. *)
Theorem delete_node_keeps_unrelated_edges node_eq fuel st x n i e :
  st_heap st !! x = Some n -> nid n = Some i ->
  In e (extra_edges st) -> fst e <> i -> snd e <> i ->
  In e (extra_edges (delete_node node_eq fuel st x)).
Proof.
  intros Hx Hi He H1 H2. unfold delete_node.
  destruct (get_parent fuel (push_undo st) x) as [par|]; [|exact He].
  destruct (detach_nid node_eq (push_undo st) par x x n Hx) as [n' [Hn' Hnid]].
  rewrite Hn', Hnid, Hi. simpl. rewrite detach_extra_edges. simpl.
  apply filter_In. split; [exact He|].
  unfold not_incident. apply String.eqb_neq in H1, H2. rewrite H1, H2. reflexivity.
Qed.

Lemma delete_node_keeps_unrelated_edges_witness :
  In ("3", "1") (extra_edges (delete_node distinct_nodes 10 chain_state 2)).
Proof.
  apply (delete_node_keeps_unrelated_edges distinct_nodes 10 chain_state 2
           (mkNode (Some "2") [3]) "2" ("3", "1"));
    [vm_compute; reflexivity | reflexivity | simpl; auto | simpl; discriminate | simpl; discriminate].
Defined.

(** C10.  With (a, b) in the overlay and (b, a) not, linking (b, a)
    succeeds and both directed edges are present. *)
Theorem link_pending_reverse_edge st a b :
  a <> b -> In (a, b) (extra_edges st) -> ~ In (b, a) (extra_edges st) ->
  snd (link_pending st b a) = Linked /\
  In (a, b) (extra_edges (fst (link_pending st b a))) /\
  In (b, a) (extra_edges (fst (link_pending st b a))).
Proof.
  intros Hab Hin Hnot. unfold link_pending.
  assert (Hne : String.eqb b a = false) by (apply String.eqb_neq; congruence).
  rewrite Hne.
  destruct (existsb (fun e => String.eqb (fst e) b && String.eqb (snd e) a) (extra_edges st))
    eqn:E.
  - exfalso. apply existsb_exists in E. destruct E as [[p c] [He Hpc]].
    apply andb_true_iff in Hpc. destruct Hpc as [Hp Hc]. simpl in Hp, Hc.
    apply String.eqb_eq in Hp, Hc. subst. exact (Hnot He).
  - simpl. split; [reflexivity|]. split; apply in_or_app; [left; exact Hin | right; left; reflexivity].
Qed.

Lemma link_pending_reverse_edge_witness :
  snd (link_pending demo_state "3" "2") = Linked /\
  In ("2", "3") (extra_edges (fst (link_pending demo_state "3" "2"))) /\
  In ("3", "2") (extra_edges (fst (link_pending demo_state "3" "2"))).
Proof.
  apply link_pending_reverse_edge; [discriminate | simpl; auto | simpl; intros [H | []]; discriminate].
Defined.

End CanvasClaims.

Module DocClaims.
Import Doc.
Local Open Scope string_scope.
Local Open Scope Z_scope.

Example int_of_string_spaces_sign_underscore : int_of_string " +1_0 " = Some 10.
Proof. reflexivity. Qed.

Example int_of_string_trailing_underscore : int_of_string "1_" = None.
Proof. reflexivity. Qed.

Example str_of_Z_samples : (str_of_Z 0, str_of_Z 7, str_of_Z 10, str_of_Z 1234) = ("0", "7", "10", "1234").
Proof. reflexivity. Qed.

Example init_without_file :
  init_model None =
  Some (mkModel (JArr [JObj [("name", JStr root_name); ("memo", JStr ""); ("children", JArr []);
                             ("id", JStr "1")]]) (JArr []) 2 [] []).
Proof. reflexivity. Qed.

(** C3.  [undo] after [push_undo] and a mutation restores the forest and
    the overlay (and the undo stack); [redo] then gives back the
    mutated forest and overlay. *)
Theorem undo_redo_inverse op m :
  let m1 := mutate op (push_undo m) in
  let '(ok, msg, m2) := undo m1 in
  ok = true /\ msg = None /\
  tree_data m2 = tree_data m /\ extra_edges m2 = extra_edges m /\
  undo_stack m2 = undo_stack m /\
  (let '(ok', msg', m3) := redo m2 in
   ok' = true /\ msg' = None /\
   tree_data m3 = tree_data m1 /\ extra_edges m3 = extra_edges m1).
Proof.
  unfold mutate, push_undo. simpl.
  destruct (op (tree_data m, extra_edges m, next_id m)) as [[t e] nx]. simpl.
  unfold undo. simpl. rewrite rev_app_distr. simpl. rewrite rev_involutive.
  repeat split; reflexivity.
Qed.

(** C8.  On an empty stack [undo] / [redo] report failure, show their
    notice and change nothing. *)
Theorem undo_redo_empty m :
  (undo_stack m = [] -> undo m = (false, Some NothingToUndo, m)) /\
  (redo_stack m = [] -> redo m = (false, Some NothingToRedo, m)).
Proof.
  split; intros H; [unfold undo | unfold redo]; rewrite H; reflexivity.
Qed.

Lemma undo_redo_empty_witness :
  undo (mkModel (JArr [default_root]) (JArr []) 1 [] []) =
    (false, Some NothingToUndo, mkModel (JArr [default_root]) (JArr []) 1 [] []) /\
  redo (mkModel (JArr [default_root]) (JArr []) 1 [] []) =
    (false, Some NothingToRedo, mkModel (JArr [default_root]) (JArr []) 1 [] []).
Proof.
  split; [apply (proj1 (undo_redo_empty _)) | apply (proj2 (undo_redo_empty _))]; reflexivity.
Defined.

(** C4 (failing inputs).  After a reset the only node has no id; loading
    [mixed_doc] gives both nodes the id "1". *)
Lemma ids_missing_after_reset_duplicated_after_load :
  option_map (fun m => node_ids (tree_data m)) after_reset = Some [None] /\
  option_map (fun m => node_ids (tree_data m)) (init_model (Some mixed_doc))
    = Some [Some (JStr "1"); Some (JStr "1")].
Proof. split; reflexivity. Qed.

(** C6 (failing input).  The forest after a reset is not what reading
    its saved document back gives: loading adds an id to the root. *)
Lemma reset_state_changes_on_reload :
  option_map tree_data after_reset = Some (JArr [default_root]) /\
  option_map tree_data (match after_reset with Some m => load_saved m | None => None end)
    = Some (JArr [JObj [("name", JStr root_name); ("memo", JStr ""); ("children", JArr []);
                        ("id", JStr "1")]]).
Proof. split; reflexivity. Qed.

End DocClaims.

Module ViewClaims.
Import View.

(** C7 (counterexample).  After two zoom-in wheel events (delta 120)
    from scale 1.0, zooming by 1.1 twice more about the same point gives
    a different float scale than one zoom by 1.1 * 1.1. *)
Lemma zoom_composition_float_counterexample :
  let v := fzoom 100 50 (mouse_wheel 120) (fzoom 100 50 (mouse_wheel 120) initial_fview) in
  PrimFloat.eqb (current_scale (fzoom_at 100 50 1.1 (fzoom_at 100 50 1.1 v)))
                (current_scale (fzoom_at 100 50 (1.1 * 1.1) v)) = false.
Proof. vm_compute. reflexivity. Qed.

(** C7 (amended).  In exact arithmetic a zoom keeps its anchor fixed,
    and two zooms about one anchor give the scale and coordinates of a
    single zoom by the product. *)
Theorem zoom_composition_exact (x y f1 f2 : Q) (v : view Q) :
  Qeq (fst (scale_point Q Qplus Qminus Qmult x y f1 (x, y))) x /\
  Qeq (snd (scale_point Q Qplus Qminus Qmult x y f1 (x, y))) y /\
  Qeq (current_scale (qzoom_at x y f2 (qzoom_at x y f1 v)))
      (current_scale (qzoom_at x y (f1 * f2) v)) /\
  Forall2 (fun a b => Qeq (fst a) (fst b) /\ Qeq (snd a) (snd b))
    (coords (qzoom_at x y f2 (qzoom_at x y f1 v))) (coords (qzoom_at x y (f1 * f2) v)).
Proof.
  unfold qzoom_at, zoom_at, scale_point. simpl.
  split; [ring|]. split; [ring|]. split; [ring|].
  rewrite map_map. induction (coords v) as [|c cs IH]; simpl; constructor; [|exact IH].
  split; simpl; ring.
Qed.

End ViewClaims.

(** * Further properties of the document view *)
Module DocFacts.
Import Doc.
Local Open Scope string_scope.
Local Open Scope Z_scope.

(** Induction over JSON values, with the nested lists and dicts. *)
Lemma json_ind' (P : json -> Prop) :
  P JNull -> (forall b, P (JBool b)) -> (forall z, P (JNum z)) -> (forall s, P (JStr s)) ->
  (forall l, Forall P l -> P (JArr l)) ->
  (forall kv, Forall (fun p => P (snd p)) kv -> P (JObj kv)) ->
  forall v, P v.
Proof.
  intros H0 H1 H2 H3 H4 H5.
  refine (fix F v := match v with
    | JNull => H0 | JBool b => H1 b | JNum z => H2 z | JStr s => H3 s
    | JArr l => H4 l ((fix G l := match l return Forall P l with
                        | [] => List.Forall_nil _
                        | x :: r => @List.Forall_cons _ _ x r (F x) (G r) end) l)
    | JObj kv => H5 kv ((fix G kv := match kv return Forall (fun p => P (snd p)) kv with
                          | [] => List.Forall_nil _
                          | (k, x) :: r => @List.Forall_cons _ _ (k, x) r (F x) (G r) end) kv)
    end).
Qed.

(** Induction over nodes: a dict may assume the property for the
    elements of each of its list values. *)
Lemma json_node_ind (P : json -> Prop) :
  (forall kv, Forall (fun p => forall cs, snd p = JArr cs -> Forall P cs) kv -> P (JObj kv)) ->
  (forall v, (forall kv, v <> JObj kv) -> P v) ->
  forall v, P v.
Proof.
  intros Hobj Hother v.
  enough (H : P v /\ forall cs, v = JArr cs -> Forall P cs) by apply H.
  revert v. apply (json_ind' (fun v => P v /\ forall cs, v = JArr cs -> Forall P cs)).
  - split; [apply Hother; discriminate | discriminate].
  - split; [apply Hother; discriminate | discriminate].
  - split; [apply Hother; discriminate | discriminate].
  - split; [apply Hother; discriminate | discriminate].
  - intros l IH. split; [apply Hother; discriminate|].
    intros cs [= <-]. eapply List.Forall_impl; [|exact IH]. intros x [Hx _]. exact Hx.
  - intros kv IH. split; [|discriminate]. apply Hobj.
    eapply List.Forall_impl; [|exact IH]. intros [k c] [_ Hc]. exact Hc.
Qed.

Lemma Forall_dict_get (Pr : json -> Prop) kv k c :
  Forall (fun p => Pr (snd p)) kv -> dict_get k kv = Some c -> Pr c.
Proof.
  induction 1 as [|[k' c'] kv Hc _ IH]; simpl; [discriminate|].
  destruct (String.eqb k k'); [intros [= <-]; exact Hc | exact IH].
Qed.

Lemma dict_get_set_eq k v kv : dict_get k (dict_set k v kv) = Some v.
Proof.
  induction kv as [|[k' v'] kv IH]; simpl; [rewrite String.eqb_refl; reflexivity|].
  destruct (String.eqb k k') eqn:E; simpl; rewrite E; [reflexivity | exact IH].
Qed.

Lemma dict_get_set_ne k k' v kv : k <> k' -> dict_get k (dict_set k' v kv) = dict_get k kv.
Proof.
  intros Hne. induction kv as [|[a b] kv IH]; simpl.
  - destruct (String.eqb_spec k k'); [congruence | reflexivity].
  - destruct (String.eqb_spec k' a) as [->|Ha]; simpl.
    + destruct (String.eqb_spec k a); [congruence | reflexivity].
    + destruct (String.eqb k a); [reflexivity | exact IH].
Qed.


Lemma node_ids_obj kv :
  node_ids (JObj kv) =
  dict_get "id" kv :: match dict_get "children" kv with Some c => node_ids c | None => [] end.
Proof.
  cbn [node_ids wf_node]. f_equal. induction kv as [|[k c] kv IH]; cbn [dict_get]; [reflexivity|].
  rewrite String.eqb_sym. destruct (String.eqb "children" k); [reflexivity | exact IH].
Qed.

Lemma wf_node_obj kv :
  wf_node (JObj kv) =
  dict_has "id" kv && dict_has "memo" kv &&
  match dict_get "children" kv with Some c => wf_iter c | None => false end.
Proof.
  cbn [node_ids wf_node]. f_equal. induction kv as [|[k c] kv IH]; cbn [dict_get]; [reflexivity|].
  rewrite String.eqb_sym. destruct (String.eqb "children" k); [reflexivity | exact IH].
Qed.

Lemma ensure_node_obj nx kv :
  ensure_node nx (JObj kv) =
  let '(nx1, kv1) := id_step nx kv in
  let kv2 := if dict_has "memo" kv1 then kv1 else dict_set "memo" (JStr "") kv1 in
  match dict_get "children" kv with
  | None => Some (nx1, JObj (dict_set "children" (JArr []) kv2))
  | Some c =>
      match ensure_iterable ensure_node nx1 c with
      | None => None
      | Some (nx2, c') => Some (nx2, JObj (dict_set "children" c' kv2))
      end
  end.
Proof.
  cbn [ensure_node]. destruct (id_step nx kv) as [nx1 kv1].
  induction kv as [|[k c] kv IH]; cbn [dict_get]; [reflexivity|].
  rewrite String.eqb_sym. destruct (String.eqb "children" k); [|exact IH].
  destruct (ensure_iterable ensure_node nx1 c) as [[nx2 c']|]; reflexivity.
Qed.

(** Decimal digits, [str] and [int]. *)
Definition dig (c : Ascii.ascii) : Prop := (48 <= Ascii.nat_of_ascii c <= 57)%nat.

Lemma digit_char d :
  0 <= d < 10 ->
  Z.of_nat (Ascii.nat_of_ascii (Ascii.ascii_of_nat (48 + Z.to_nat d))) = 48 + d /\
  dig (Ascii.ascii_of_nat (48 + Z.to_nat d)).
Proof.
  intros Hd. unfold dig. rewrite Ascii.nat_ascii_embedding by lia. split; lia.
Qed.

Lemma parse_digit c rest a b :
  dig c ->
  parse_digits (c :: rest) a b =
  parse_digits rest (a * 10 + (Z.of_nat (Ascii.nat_of_ascii c) - 48)) true.
Proof.
  intros H. unfold dig in H. simpl.
  replace ((48 <=? Z.of_nat (Ascii.nat_of_ascii c)) && (Z.of_nat (Ascii.nat_of_ascii c) <=? 57))
    with true; [reflexivity|].
  symmetry. apply andb_true_iff. split; apply Z.leb_le; lia.
Qed.

Lemma digits_rev_parse f :
  forall n acc, 0 <= n < 10 ^ Z.of_nat (S f) ->
  exists k, 0 <= k /\ forall a b,
    parse_digits (list_ascii_of_string (digits_rev (S f) n acc)) a b =
    parse_digits (list_ascii_of_string acc) (a * 10 ^ k + n) true.
Proof.
  induction f as [|f IH]; intros n acc Hn; cbn [digits_rev];
    pose proof (Z.mod_pos_bound n 10 ltac:(lia)) as Hm;
    destruct (digit_char (n mod 10) Hm) as [Hv Hd];
    destruct (Z.ltb_spec n 10) as [Hlt|Hge].
  - exists 1. split; [lia|]. intros a b. cbn [list_ascii_of_string].
    rewrite parse_digit by exact Hd. rewrite Hv, Z.mod_small by lia.
    f_equal. lia.
  - simpl in Hn. lia.
  - exists 1. split; [lia|]. intros a b. cbn [list_ascii_of_string].
    rewrite parse_digit by exact Hd. rewrite Hv, Z.mod_small by lia.
    f_equal. lia.
  - assert (Hq : 0 <= n / 10 < 10 ^ Z.of_nat (S f)).
    { split; [apply Z.div_pos; lia|].
      apply Z.div_lt_upper_bound; [lia|].
      replace (10 * 10 ^ Z.of_nat (S f)) with (10 ^ Z.of_nat (S (S f))); [lia|].
      rewrite (Nat2Z.inj_succ (S f)), Z.pow_succ_r by lia. reflexivity. }
    destruct (IH (n / 10) (String (Ascii.ascii_of_nat (48 + Z.to_nat (n mod 10))) acc) Hq)
      as [k [Hk Hp]].
    exists (k + 1). split; [lia|]. intros a b. rewrite Hp. cbn [list_ascii_of_string].
    rewrite parse_digit by exact Hd. rewrite Hv.
    f_equal. rewrite Z.pow_add_r by lia. pose proof (Z.div_mod n 10 ltac:(lia)). nia.
Qed.

Lemma digits_rev_dig f n acc :
  Forall dig (list_ascii_of_string acc) ->
  Forall dig (list_ascii_of_string (digits_rev f n acc)).
Proof.
  revert n acc. induction f as [|f IH]; intros n acc H; cbn [digits_rev]; [exact H|].
  pose proof (Z.mod_pos_bound n 10 ltac:(lia)) as Hm.
  destruct (digit_char (n mod 10) Hm) as [_ Hd].
  destruct (n <? 10); [|apply IH]; simpl; constructor; assumption.
Qed.

Lemma digits_rev_suffix f n acc :
  exists pre, list_ascii_of_string (digits_rev f n acc) = (pre ++ list_ascii_of_string acc)%list.
Proof.
  revert n acc. induction f as [|f IH]; intros n acc; cbn [digits_rev]; [exists []; reflexivity|].
  destruct (n <? 10).
  - eexists [_]. reflexivity.
  - destruct (IH (n / 10) (String (Ascii.ascii_of_nat (48 + Z.to_nat (n mod 10))) acc)) as [pre E].
    rewrite E. exists (pre ++ [Ascii.ascii_of_nat (48 + Z.to_nat (n mod 10))])%list.
    rewrite <- app_assoc. reflexivity.
Qed.

Lemma digits_rev_S f n acc :
  digits_rev (S f) n acc =
  let acc' := String (Ascii.ascii_of_nat (48 + Z.to_nat (n mod 10))) acc in
  if n <? 10 then acc' else digits_rev f (n / 10) acc'.
Proof. reflexivity. Qed.

Lemma digits_rev_nonempty f n acc : list_ascii_of_string (digits_rev (S f) n acc) <> [].
Proof.
  rewrite digits_rev_S. cbv zeta. destruct (n <? 10); [discriminate|].
  destruct (digits_rev_suffix f (n / 10)
             (String (Ascii.ascii_of_nat (48 + Z.to_nat (n mod 10))) acc)) as [pre E].
  rewrite E. destruct pre; discriminate.
Qed.

Lemma str_digits z :
  0 <= z ->
  let l := list_ascii_of_string (digits_rev (S (S (Z.to_nat (Z.log2 z)))) z "") in
  Forall dig l /\ l <> [] /\ parse_digits l 0 false = Some z.
Proof.
  intros Hz l. split; [apply digits_rev_dig; constructor|]. split.
  - subst l. apply digits_rev_nonempty.
  - assert (Hb : 0 <= z < 10 ^ Z.of_nat (S (S (Z.to_nat (Z.log2 z))))).
    { split; [exact Hz|].
      pose proof (Z.log2_nonneg z) as Hl.
      replace (Z.of_nat (S (S (Z.to_nat (Z.log2 z))))) with (Z.succ (Z.log2 z) + 1) by lia.
      destruct (Z.eq_dec z 0) as [->|Hz0]; [simpl; lia|].
      destruct (Z.log2_spec z ltac:(lia)) as [_ Hup].
      apply Z.lt_le_trans with (2 ^ Z.succ (Z.log2 z)); [exact Hup|].
      apply Z.le_trans with (10 ^ Z.succ (Z.log2 z)).
      - apply Z.pow_le_mono_l. lia.
      - apply Z.pow_le_mono_r; lia. }
    destruct (digits_rev_parse (S (Z.to_nat (Z.log2 z))) z "" Hb) as [k [_ Hp]].
    subst l. rewrite Hp. reflexivity.
Qed.

Lemma dig_not_space c : dig c -> is_py_space c = false.
Proof.
  unfold dig, is_py_space. intros H.
  remember (Ascii.nat_of_ascii c) as m. clear Heqm.
  do 33 (destruct m as [|m]; [lia|]). reflexivity.
Qed.

Lemma drop_spaces_keep c l : is_py_space c = false -> drop_spaces (c :: l) = c :: l.
Proof. intros H. simpl. rewrite H. reflexivity. Qed.

Lemma py_strip_digits l : Forall dig l -> py_strip l = l.
Proof.
  intros H. unfold py_strip.
  destruct l as [|c r]; [reflexivity|].
  inversion H as [|? ? Hc _]; subst.
  rewrite drop_spaces_keep by (apply dig_not_space; exact Hc).
  pose proof (List.Forall_rev H) as Hr.
  destruct (rev (c :: r)) as [|d r'] eqn:E;
    [apply (f_equal (@rev _)) in E; rewrite rev_involutive in E; discriminate|].
  inversion Hr as [|? ? Hd _]; subst.
  rewrite drop_spaces_keep by (apply dig_not_space; exact Hd).
  rewrite <- E. apply rev_involutive.
Qed.

Lemma py_strip_minus l : Forall dig l -> l <> [] -> py_strip ("-"%char :: l) = "-"%char :: l.
Proof.
  intros H Hne. unfold py_strip.
  rewrite drop_spaces_keep by reflexivity. simpl rev.
  pose proof (List.Forall_rev H) as Hr.
  destruct (rev l) as [|d r'] eqn:E.
  - exfalso. apply Hne. rewrite <- (rev_involutive l), E. reflexivity.
  - inversion Hr as [|? ? Hd _]; subst. simpl app.
    rewrite drop_spaces_keep by (apply dig_not_space; exact Hd).
    change (d :: r' ++ ["-"%char])%list with ((d :: r') ++ ["-"%char])%list.
    rewrite <- E, rev_app_distr, rev_involutive. reflexivity.
Qed.

Lemma dig_not_sign c : dig c -> Ascii.eqb c "-"%char = false /\ Ascii.eqb c "+"%char = false.
Proof.
  unfold dig. intros H. split.
  - destruct (Ascii.eqb_spec c "-"%char) as [E|E]; [|reflexivity].
    rewrite E in H. cbv in H. lia.
  - destruct (Ascii.eqb_spec c "+"%char) as [E|E]; [|reflexivity].
    rewrite E in H. cbv in H. lia.
Qed.

Lemma chars_minus s :
  list_ascii_of_string (String.append "-" s) = "-"%char :: list_ascii_of_string s.
Proof. reflexivity. Qed.

(** On text below code point 127, [int()] is [PyLong_FromString] on
    the bytes themselves. *)
Lemma ascii_decode l :
  Forall (fun c => byte_val c < 127) l ->
  utf8_decode l = Some (map byte_val l) /\ to_ascii_digits (map byte_val l) = Some l.
Proof.
  induction 1 as [|c l Hc Hl [IH1 IH2]]; [split; reflexivity|]. split.
  - cbn [utf8_decode]. rewrite (proj2 (Z.ltb_lt _ 128)) by lia. rewrite IH1. reflexivity.
  - cbn [to_ascii_digits map]. rewrite (proj2 (Z.ltb_lt _ 127)) by lia. rewrite IH2.
    unfold byte_val. rewrite Nat2Z.id, Ascii.ascii_nat_embedding. reflexivity.
Qed.

Lemma int_of_string_ascii s :
  Forall (fun c => byte_val c < 127) (list_ascii_of_string s) ->
  int_of_string s = parse_int (list_ascii_of_string s).
Proof.
  intros H. destruct (ascii_decode _ H) as [E1 E2].
  unfold int_of_string. rewrite E1, E2. reflexivity.
Qed.

Lemma dig_ascii c : dig c -> byte_val c < 127.
Proof. unfold dig, byte_val. lia. Qed.

Lemma int_of_str z : int_of_string (str_of_Z z) = Some z.
Proof.
  unfold str_of_Z. destruct (Z.ltb_spec z 0) as [Hneg|Hpos].
  - replace (Z.abs z) with (- z) by lia.
    destruct (str_digits (- z) ltac:(lia)) as [Hd [Hne Hp]].
    rewrite int_of_string_ascii; rewrite chars_minus;
      [| constructor; [cbv; reflexivity | exact (List.Forall_impl _ dig_ascii Hd)]].
    unfold parse_int. rewrite py_strip_minus by assumption.
    simpl Ascii.eqb. rewrite Hp. simpl. f_equal. lia.
  - replace (Z.abs z) with z by lia.
    destruct (str_digits z Hpos) as [Hd [Hne Hp]].
    rewrite int_of_string_ascii by exact (List.Forall_impl _ dig_ascii Hd).
    unfold parse_int. rewrite py_strip_digits by exact Hd.
    destruct (list_ascii_of_string (digits_rev (S (S (Z.to_nat (Z.log2 z)))) z "")) as [|c r]
      eqn:E; [congruence|].
    inversion Hd as [|? ? Hc _]; subst.
    destruct (dig_not_sign c Hc) as [-> ->]. exact Hp.
Qed.

(** [int()] on the inputs where CPython departs from ASCII-only
    parsing: U+001C and U+200B are not white space for it, while U+00A0
    is, and Arabic-Indic digits are decimal digits. *)
Example int_of_string_fs : int_of_string (String (Ascii.ascii_of_nat 28) "5") = None.
Proof. vm_compute. reflexivity. Qed.

Example int_of_string_nbsp :
  int_of_string (String (Ascii.ascii_of_nat 194) (String (Ascii.ascii_of_nat 160) "5")) = Some 5.
Proof. vm_compute. reflexivity. Qed.

Example int_of_string_arabic_indic : int_of_string "١٠" = Some 10.
Proof. vm_compute. reflexivity. Qed.

Example int_of_string_zwsp :
  int_of_string (String (Ascii.ascii_of_nat 226) (String (Ascii.ascii_of_nat 128)
                   (String (Ascii.ascii_of_nat 139) "5"))) = None.
Proof. vm_compute. reflexivity. Qed.

(** Counter bounds and the ["id"] step. *)
Lemma id_below_mono a b o : a <= b -> id_below a o = true -> id_below b o = true.
Proof.
  intros Hab. unfold id_below. destruct o as [j|]; [|auto].
  destruct (py_int j); [|auto]. rewrite !Z.ltb_lt. lia.
Qed.

Lemma ids_below_mono a b v : a <= b -> ids_below a v = true -> ids_below b v = true.
Proof.
  intros Hab H. unfold ids_below in *. apply forallb_forall. intros o Ho.
  apply (id_below_mono a); [exact Hab|]. exact (proj1 (forallb_forall _ _) H o Ho).
Qed.

Lemma id_step_spec nx kv :
  let '(nx1, kv1) := id_step nx kv in
  nx <= nx1 /\ dict_has "id" kv1 = true /\ id_below nx1 (dict_get "id" kv1) = true.
Proof.
  unfold id_step. destruct (dict_get "id" kv) as [v|] eqn:E.
  - unfold dict_has. destruct (py_int v) as [num|] eqn:P.
    + destruct (Z.leb_spec nx num); rewrite E; simpl; rewrite P;
        (split; [lia|]); (split; [reflexivity|]); apply Z.ltb_lt; lia.
    + rewrite E. simpl. rewrite P. repeat split; lia.
  - unfold dict_has. rewrite dict_get_set_eq. simpl. rewrite int_of_str.
    repeat split; try lia; apply Z.ltb_lt; lia.
Qed.


Lemma final_obj_spec nx1 nx2 kv1 C :
  dict_has "id" kv1 = true -> id_below nx1 (dict_get "id" kv1) = true -> nx1 <= nx2 ->
  wf_iter C = true -> ids_below nx2 C = true ->
  let kv2 := if dict_has "memo" kv1 then kv1 else dict_set "memo" (JStr "") kv1 in
  wf_node (JObj (dict_set "children" C kv2)) = true /\
  ids_below nx2 (JObj (dict_set "children" C kv2)) = true.
Proof.
  intros Hid Hb Hle Hw Hi kv2.
  assert (Hgid : dict_get "id" (dict_set "children" C kv2) = dict_get "id" kv1).
  { rewrite dict_get_set_ne by discriminate. subst kv2.
    destruct (dict_has "memo" kv1); [reflexivity|]. apply dict_get_set_ne. discriminate. }
  assert (Hmemo : dict_has "memo" (dict_set "children" C kv2) = true).
  { unfold dict_has. rewrite dict_get_set_ne by discriminate. subst kv2.
    destruct (dict_has "memo" kv1) eqn:E; [exact E|]. rewrite dict_get_set_eq. reflexivity. }
  assert (Hid3 : dict_has "id" (dict_set "children" C kv2) = true).
  { unfold dict_has in *. rewrite Hgid. exact Hid. }
  split.
  - rewrite wf_node_obj, Hid3, Hmemo, dict_get_set_eq. exact Hw.
  - unfold ids_below. rewrite node_ids_obj, dict_get_set_eq, Hgid. simpl.
    apply andb_true_intro. split; [apply (id_below_mono nx1); assumption | exact Hi].
Qed.

(** What a successful [ensure_node] returns. *)
Definition ens_ok (v : json) : Prop :=
  forall nx nx' v', ensure_node nx v = Some (nx', v') ->
  nx <= nx' /\ wf_node v' = true /\ ids_below nx' v' = true.

Lemma ensure_list_spec l nx nx2 l' :
  Forall ens_ok l -> ensure_list ensure_node nx l = Some (nx2, l') ->
  nx <= nx2 /\ forallb wf_node l' = true /\ forallb (id_below nx2) (flat_map node_ids l') = true.
Proof.
  intros Hl. revert nx nx2 l'. induction Hl as [|v l Hv _ IH]; intros nx nx2 l' H; simpl in H.
  - injection H as <- <-. repeat split; lia.
  - destruct (ensure_node nx v) as [[nx1 v']|] eqn:E1; [|discriminate].
    destruct (ensure_list ensure_node nx1 l) as [[nx3 r]|] eqn:E2; [|discriminate].
    injection H as <- <-.
    destruct (Hv _ _ _ E1) as [Hle1 [Hw1 Hi1]].
    destruct (IH _ _ _ E2) as [Hle2 [Hw2 Hi2]].
    split; [lia|]. simpl. rewrite Hw1, Hw2. split; [reflexivity|].
    rewrite forallb_app, Hi2, andb_true_r.
    exact (ids_below_mono _ _ _ Hle2 Hi1).
Qed.

Lemma ensure_iterable_spec c nx nx2 c' :
  (forall cs, c = JArr cs -> Forall ens_ok cs) ->
  ensure_iterable ensure_node nx c = Some (nx2, c') ->
  nx <= nx2 /\ wf_iter c' = true /\ ids_below nx2 c' = true.
Proof.
  intros Hc H. destruct c as [| | |s|l|kv]; try discriminate.
  - destruct s; [|discriminate]. injection H as <- <-. repeat split; lia.
  - simpl in H. destruct (ensure_list ensure_node nx l) as [[nx3 l']|] eqn:E; [|discriminate].
    injection H as <- <-. exact (ensure_list_spec _ _ _ _ (Hc l eq_refl) E).
  - destruct kv; [|discriminate]. injection H as <- <-. repeat split; lia.
Qed.

Lemma ensure_node_spec : forall v, ens_ok v.
Proof.
  apply json_node_ind.
  2:{ intros v Hv nx nx' v' H. destruct v; try discriminate.
      exfalso. eapply Hv. reflexivity. }
  intros kv IH nx nx' v' H. rewrite ensure_node_obj in H.
  pose proof (id_step_spec nx kv) as Hid. destruct (id_step nx kv) as [nx1 kv1].
  destruct Hid as [Hle [Hhas Hbelow]].
  destruct (dict_get "children" kv) as [c|] eqn:Ec.
  - destruct (ensure_iterable ensure_node nx1 c) as [[nx2 c']|] eqn:Ei; [|discriminate].
    injection H as <- <-.
    pose proof (Forall_dict_get (fun c => forall cs, c = JArr cs -> Forall ens_ok cs)
                  kv "children" c IH Ec) as Hc.
    destruct (ensure_iterable_spec _ _ _ _ Hc Ei) as [Hle2 [Hw Hi]].
    split; [lia|]. exact (final_obj_spec nx1 nx2 kv1 c' Hhas Hbelow Hle2 Hw Hi).
  - injection H as <- <-. split; [lia|].
    exact (final_obj_spec nx1 nx1 kv1 (JArr []) Hhas Hbelow (Z.le_refl _) eq_refl eq_refl).
Qed.





Lemma init_model_parts raw m :
  init_model raw = Some m ->
  exists td, ensure_ids 1 td = Some (next_id m, tree_data m) /\ undo_stack m = [] /\ redo_stack m = [].
Proof.
  unfold init_model.
  match goal with |- context [let '(td, ee) := ?P in _] => destruct P as [td ee] end.
  destruct (ensure_ids 1 td) as [[nx td']|] eqn:E; [|discriminate].
  intros [= <-]. exists td. simpl. split; [exact E|]. split; reflexivity.
Qed.

End DocFacts.

Module DocExtras.
Import Doc DocFacts.
Local Open Scope string_scope.
Local Open Scope Z_scope.

(** [str] then [int] gives back any integer: the ids [ensure_ids] and
    [add_node] assign read back as the counter value. *)
Theorem int_str_round_trip z : int_of_string (str_of_Z z) = Some z.
Proof. apply int_of_str. Qed.

(** After loading, every node has an ["id"], a ["memo"] and an iterable
    ["children"], and [next_id] exceeds every id that [int()] accepts. *)
Theorem init_model_ids_ok raw m : init_model raw = Some m -> ids_ok m = true.
Proof.
  intros H. destruct (init_model_parts raw m H) as [td [E _]].
  unfold ensure_ids in E.
  assert (Hc : forall cs, td = JArr cs -> Forall ens_ok cs).
  { intros cs _. apply Forall_forall. intros x _. apply ensure_node_spec. }
  destruct (ensure_iterable_spec _ _ _ _ Hc E) as [_ [Hw Hi]].
  unfold ids_ok. rewrite Hw, Hi. reflexivity.
Qed.

Lemma init_model_ids_ok_witness :
  ids_ok (mkModel (JArr [JObj [("name", JStr "a"); ("memo", JStr ""); ("children", JArr []);
                               ("id", JStr "1")];
                         JObj [("id", JStr "1"); ("name", JStr "b"); ("memo", JStr "");
                               ("children", JArr [])]]) (JArr []) 2 [] []) = true.
Proof. apply (init_model_ids_ok (Some mixed_doc)). reflexivity. Defined.



(** [redo] undoes an [undo] and [undo] undoes a [redo]: whenever the
    stack is non-empty, the model comes back exactly, stacks included. *)
Theorem undo_redo_exact_inverse m :
  (undo_stack m <> [] ->
   let '(ok, msg, m1) := undo m in ok = true /\ msg = None /\ redo m1 = (true, None, m)) /\
  (redo_stack m <> [] ->
   let '(ok, msg, m1) := redo m in ok = true /\ msg = None /\ undo m1 = (true, None, m)).
Proof.
  destruct m as [td ee nx us rs]. split; intros Hne; simpl in Hne.
  - unfold undo. simpl. destruct (rev us) as [|[t e] rest] eqn:E.
    + exfalso. apply Hne. rewrite <- (rev_involutive us), E. reflexivity.
    + split; [reflexivity|]. split; [reflexivity|].
      unfold redo. simpl. rewrite rev_app_distr. simpl. rewrite rev_involutive.
      rewrite <- (rev_involutive us), E. reflexivity.
  - unfold redo. simpl. destruct (rev rs) as [|[t e] rest] eqn:E.
    + exfalso. apply Hne. rewrite <- (rev_involutive rs), E. reflexivity.
    + split; [reflexivity|]. split; [reflexivity|].
      unfold undo. simpl. rewrite rev_app_distr. simpl. rewrite rev_involutive.
      rewrite <- (rev_involutive rs), E. reflexivity.
Qed.

Lemma undo_redo_exact_inverse_witness :
  (let '(ok, msg, m1) := undo (mkModel (JArr []) (JArr []) 1 [(JArr [default_root], JArr [])] []) in
   ok = true /\ msg = None /\
   redo m1 = (true, None, mkModel (JArr []) (JArr []) 1 [(JArr [default_root], JArr [])] [])) /\
  (let '(ok, msg, m1) := redo (mkModel (JArr []) (JArr []) 1 [] [(JArr [default_root], JArr [])]) in
   ok = true /\ msg = None /\
   undo m1 = (true, None, mkModel (JArr []) (JArr []) 1 [] [(JArr [default_root], JArr [])])).
Proof.
  split.
  - apply (proj1 (undo_redo_exact_inverse
                    (mkModel (JArr []) (JArr []) 1 [(JArr [default_root], JArr [])] []))).
    discriminate.
  - apply (proj2 (undo_redo_exact_inverse
                    (mkModel (JArr []) (JArr []) 1 [] [(JArr [default_root], JArr [])]))).
    discriminate.
Defined.

(** A cancelled [add_node] (no name, or an empty one) still records an
    undo step and clears the redo history: the forest, the overlay and
    the counter are unchanged, the undo stack gains a copy of the current
    state, and [redo] has nothing left to do. *)
Theorem add_node_cancel_drops_redo m name :
  name = None \/ name = Some "" ->
  let m' := add_root_node m name in
  tree_data m' = tree_data m /\ extra_edges m' = extra_edges m /\ next_id m' = next_id m /\
  undo_stack m' = (undo_stack m ++ [(tree_data m, extra_edges m)])%list /\
  redo m' = (false, Some NothingToRedo, m').
Proof.
  intros [-> | ->]; repeat split; reflexivity.
Qed.

Lemma add_node_cancel_drops_redo_witness :
  let m := mkModel (JArr [default_root]) (JArr []) 2 [] [(JArr [], JArr [])] in
  let m' := add_root_node m None in
  tree_data m' = tree_data m /\ extra_edges m' = extra_edges m /\ next_id m' = next_id m /\
  undo_stack m' = (undo_stack m ++ [(tree_data m, extra_edges m)])%list /\
  redo m' = (false, Some NothingToRedo, m').
Proof. apply add_node_cancel_drops_redo. left. reflexivity. Defined.



(** [count_leaves] on any node of a loaded forest raises nothing and
    counts at least one leaf. *)
Definition cl_ok (v : json) : Prop :=
  wf_node v = true -> exists k, count_leaves v = Some k /\ 1 <= k.

Theorem count_leaves_positive v :
  wf_node v = true -> exists k, count_leaves v = Some k /\ 1 <= k.
Proof.
  revert v. apply (json_node_ind cl_ok).
  2:{ intros v Hv Hw. destruct v; try (simpl in Hw; discriminate).
      exfalso. eapply Hv. reflexivity. }
  intros kv IH Hw. rewrite wf_node_obj in Hw.
  apply andb_true_iff in Hw as [_ Hc].
  destruct (dict_get "children" kv) as [c|] eqn:Ec; [|discriminate].
  pose proof (Forall_dict_get (fun c => forall cs, c = JArr cs -> Forall cl_ok cs)
                kv "children" c IH Ec) as Hcs.
  clear IH. cbn [count_leaves].
  induction kv as [|[k c0] kv IHkv]; [discriminate|].
  cbn [dict_get] in Ec. rewrite String.eqb_sym.
  destruct (String.eqb "children" k); [|exact (IHkv Ec)].
  injection Ec as ->.
  destruct c as [| | |s|cs|kv']; try discriminate.
  - destruct s; [|discriminate]. exists 1. split; [reflexivity | lia].
  - specialize (Hcs cs eq_refl). simpl in Hc.
    destruct cs as [|x xs]; [exists 1; split; [reflexivity | lia]|].
    match goal with |- context [?F xs] =>
      assert (Hsum : forall ys, Forall cl_ok ys -> forallb wf_node ys = true ->
                     exists b, F ys = Some b /\ 0 <= b) end.
    { induction ys as [|y ys IHys]; intros Hf Hy; [exists 0; split; [reflexivity | lia]|].
      inversion Hf as [|? ? Hy1 Hys]; subst. simpl in Hy. apply andb_true_iff in Hy as [Hy Hy'].
      destruct (Hy1 Hy) as [a [Ea Ha]]. destruct (IHys Hys Hy') as [b [Eb Hb]].
      exists (a + b). split; [|lia]. simpl. rewrite Ea, Eb. reflexivity. }
    inversion Hcs as [|? ? Hx Hxs]; subst. simpl in Hc. apply andb_true_iff in Hc as [Hcx Hcxs].
    destruct (Hx Hcx) as [a [Ea Ha]]. destruct (Hsum xs Hxs Hcxs) as [b [Eb Hb]].
    exists (a + b). split; [|lia]. rewrite Ea, Eb. reflexivity.
  - destruct kv'; [|discriminate]. exists 1. split; [reflexivity | lia].
Qed.

Lemma count_leaves_positive_witness :
  exists k, count_leaves (JObj [("id", JStr "1"); ("memo", JStr "");
                                ("children", JArr [JObj [("id", JStr "2"); ("memo", JStr "");
                                                         ("children", JArr [])];
                                                   JObj [("id", JStr "3"); ("memo", JStr "");
                                                         ("children", JStr "")]])]) = Some k /\ 1 <= k.
Proof. apply count_leaves_positive. reflexivity. Defined.

(** A document that is neither a list nor a dict with a ["tree_data"]
    key loads as if there were no file: the default root, no overlay
    edges, [next_id] 2. *)
Theorem init_model_fallback d :
  (forall l, d <> JArr l) ->
  (forall kv, d = JObj kv -> dict_get "tree_data" kv = None) ->
  init_model (Some d) = init_model None /\
  init_model None = Some (mkModel (JArr [JObj [("name", JStr root_name); ("memo", JStr "");
                                               ("children", JArr []); ("id", JStr "1")]])
                                  (JArr []) 2 [] []).
Proof.
  intros Hl Hk. split; [|reflexivity].
  destruct d as [| | | |l|kv]; try reflexivity.
  - exfalso. exact (Hl l eq_refl).
  - unfold init_model. rewrite (Hk kv eq_refl). reflexivity.
Qed.

Lemma init_model_fallback_witness :
  init_model (Some (JObj [("extra_edges", JArr [JArr [JStr "1"; JStr "2"]])])) = init_model None /\
  init_model None = Some (mkModel (JArr [JObj [("name", JStr root_name); ("memo", JStr "");
                                               ("children", JArr []); ("id", JStr "1")]])
                                  (JArr []) 2 [] []).
Proof.
  apply init_model_fallback; [discriminate|].
  intros kv [= <-]. reflexivity.
Defined.

End DocExtras.

(** * Further properties of the canvas handlers *)
Module CanvasMore.
Import Canvas CanvasFacts.

Lemma NoDup_snoc {A} (l : list A) y : List.NoDup l -> ~ In y l -> List.NoDup (l ++ [y]).
Proof.
  induction 1 as [|x l Hx Hl IH]; intros Hy; simpl.
  - constructor; [intros []|constructor].
  - constructor.
    + intros Hin. apply in_app_or in Hin. destruct Hin as [Hin | [<- | []]].
      * exact (Hx Hin).
      * apply Hy. left. reflexivity.
    + apply IH. intros Hin. apply Hy. right. exact Hin.
Qed.

Lemma NoDup_filter' {A} (f : A -> bool) l : List.NoDup l -> List.NoDup (List.filter f l).
Proof.
  induction 1 as [|x l Hx Hl IH]; simpl; [constructor|].
  destruct (f x); [|exact IH]. constructor; [|exact IH].
  intros Hin. apply filter_In in Hin. exact (Hx (proj1 Hin)).
Qed.

Lemma overlay_ok_filter f l : overlay_ok l -> overlay_ok (List.filter f l).
Proof.
  intros [Hd Hs]. split; [apply NoDup_filter'; exact Hd|].
  apply List.Forall_forall. intros e He. apply filter_In in He.
  exact (proj1 (List.Forall_forall _ _) Hs e (proj1 He)).
Qed.

Lemma detach_edges node_eq st par x :
  extra_edges (detach node_eq st par x) = extra_edges st.
Proof.
  unfold detach. destruct par as [p|].
  - destruct (st_heap st !! p); [|reflexivity].
    destruct (list_remove node_eq x _); reflexivity.
  - destruct (list_remove node_eq x (tree_data st)); reflexivity.
Qed.

Lemma release_edges node_eq fuel st x dragging over_trash hits :
  extra_edges (on_node_release node_eq fuel st x dragging over_trash hits) = extra_edges st.
Proof.
  unfold on_node_release. destruct dragging, over_trash; simpl; try reflexivity.
  - unfold trash_delete. destruct (get_parent fuel (push_undo st) x); [|reflexivity].
    rewrite detach_edges. reflexivity.
  - destruct (find_target fuel st x hits) as [[t|]|]; try reflexivity.
    unfold reparent. destruct (get_parent fuel (push_undo st) x) as [par|]; [|reflexivity].
    set (st2 := match par with Some _ => detach node_eq (push_undo st) par x | None => push_undo st end).
    assert (E : extra_edges st2 = extra_edges st).
    { subst st2. destruct par; [rewrite detach_edges|]; reflexivity. }
    destruct (st_heap st2 !! t); exact E.
Qed.

Lemma confirm_remove_cases named fuel st c p cid confirm :
  confirm_remove_extra named fuel st c p cid confirm = st \/
  confirm_remove_extra named fuel st c p cid confirm = remove_extra_edge st p cid.
Proof.
  unfold confirm_remove_extra.
  destruct (get_node_by_id fuel (st_heap st) p (tree_data st)) as [[q|]|]; auto.
  destruct (named c && named q); [destruct confirm|]; auto.
Qed.

Lemma delete_extra_parent_cases named fuel st c confirm pick :
  delete_extra_parent named fuel st c confirm pick = st \/
  exists p cid, delete_extra_parent named fuel st c confirm pick = remove_extra_edge st p cid.
Proof.
  unfold delete_extra_parent.
  destruct (st_heap st !! c) as [cn|]; [|auto]. destruct (nid cn) as [cid|]; [|auto].
  destruct (extra_parents cid (extra_edges st)) as [|p [|p2 ps]]; [auto| |].
  - destruct (confirm_remove_cases named fuel st c p cid confirm) as [E|E]; rewrite E; eauto.
  - destruct (forallb _ _); [|auto]. destruct pick as [k|]; [|auto].
    destruct (nth_error _ k) as [q|]; [|auto].
    destruct (confirm_remove_cases named fuel st c q cid confirm) as [E|E]; rewrite E; eauto.
Qed.

Lemma get_node_by_id_sound fuel h i :
  forall roots l, get_node_by_id fuel h i roots = Some (Some l) ->
  (exists n, h !! l = Some n /\ nid n = Some i) /\ exists r, In r roots /\ reach h r l.
Proof.
  induction fuel as [|f IH]; intros roots l H; simpl in H; [discriminate|].
  induction roots as [|r rs IHr]; [discriminate|].
  destruct (h !! r) as [n|] eqn:Hr; [|discriminate].
  case_bool_decide as Hid.
  - injection H as <-. split; [exists n; split; assumption|].
    exists r. split; [left; reflexivity | apply rtc_refl].
  - destruct (get_node_by_id f h i (children n)) as [[r'|]|] eqn:E; try discriminate.
    + injection H as <-. destruct (IH _ _ E) as [Hn [c [Hc Hcl]]]. split; [exact Hn|].
      exists r. split; [left; reflexivity|].
      eapply reach_step_l; [|exact Hcl]. exists n. split; assumption.
    + destruct (IHr H) as [Hn [r0 [Hr0 Hrl]]]. split; [exact Hn|].
      exists r0. split; [right; exact Hr0 | exact Hrl].
Qed.

Lemma get_parent_recursive_sound f h :
  forall nd x p, get_parent_recursive f h nd x = Some (Some p) -> child_of h p x /\ reach h nd p.
Proof.
  induction f as [|f IH]; intros nd x p H; simpl in H; [discriminate|].
  destruct (h !! nd) as [n|] eqn:Hn; [|discriminate].
  revert H. remember (children n) as cs eqn:Ecs.
  assert (Hincl : incl cs (children n)) by (rewrite Ecs; apply incl_refl).
  clear Ecs. revert Hincl.
  induction cs as [|c cs IHc]; intros Hincl H; [discriminate|].
  destruct (Nat.eqb_spec c x) as [<-|Hne].
  - injection H as <-. split; [|apply rtc_refl].
    exists n. split; [exact Hn | apply Hincl; left; reflexivity].
  - destruct (get_parent_recursive f h c x) as [[q|]|] eqn:E; try discriminate.
    + injection H as <-. destruct (IH _ _ _ E) as [Hq Hr]. split; [exact Hq|].
      eapply reach_step_l; [|exact Hr]. exists n. split; [exact Hn | apply Hincl; left; reflexivity].
    + apply IHc; [|exact H]. intros y Hy. apply Hincl. right. exact Hy.
Qed.

(** A graph whose edges strictly decrease a rank has no cycle. *)
Lemma acyclic_of_rank (rank : loc -> nat) h :
  (forall a b, child_of h a b -> rank b < rank a) -> acyclic h.
Proof.
  intros Hr a b Hab Hba.
  assert (Hle : forall u v, reach h u v -> rank v <= rank u).
  { intros u v Huv. induction Huv as [|u w v Huw _ IH]; [lia|]. specialize (Hr _ _ Huw). lia. }
  specialize (Hr _ _ Hab). specialize (Hle _ _ Hba). lia.
Qed.

Lemma demo_acyclic : acyclic (st_heap demo_state).
Proof.
  apply (acyclic_of_rank (fun l => if Nat.eqb l 1 then 1 else 0)).
  intros a b [n [Hn Hin]]. apply elem_of_list_to_map_2 in Hn.
  repeat rewrite elem_of_cons in Hn. rewrite elem_of_nil in Hn.
  destruct Hn as [E|[E|[E|[]]]]; injection E as Ea En; subst a n; simpl in Hin;
    [destruct Hin as [<-|[<-|[]]]; simpl; lia | destruct Hin | destruct Hin].
Qed.

End CanvasMore.

Module CanvasExtras.
Import Canvas CanvasFacts CanvasMore.

(** A node [get_node_by_id] returns carries the id asked for and lies
    in the forest: it is reachable from one of the roots. *)
Theorem get_node_by_id_returns_match fuel st i l :
  get_node_by_id fuel (st_heap st) i (tree_data st) = Some (Some l) ->
  (exists n, st_heap st !! l = Some n /\ nid n = Some i) /\
  exists r, In r (tree_data st) /\ reach (st_heap st) r l.
Proof. apply get_node_by_id_sound. Qed.

Lemma get_node_by_id_returns_match_witness :
  (exists n, st_heap demo_state !! 3 = Some n /\ nid n = Some "3") /\
  exists r, In r (tree_data demo_state) /\ reach (st_heap demo_state) r 3.
Proof. apply (get_node_by_id_returns_match 10 demo_state "3" 3). vm_compute. reflexivity. Defined.

(** A parent [get_parent] returns owns the node in its children list and
    is itself reachable from one of the roots. *)
Theorem get_parent_returns_owner fuel st x p :
  get_parent fuel st x = Some (Some p) ->
  child_of (st_heap st) p x /\ exists r, In r (tree_data st) /\ reach (st_heap st) r p.
Proof.
  unfold get_parent. generalize (tree_data st) as forest.
  induction forest as [|r rs IH]; simpl; intros H; [discriminate|].
  destruct (Nat.eqb r x); [discriminate|].
  destruct (get_parent_recursive fuel (st_heap st) r x) as [[q|]|] eqn:E; try discriminate.
  - injection H as <-. destruct (get_parent_recursive_sound _ _ _ _ _ E) as [Hc Hr].
    split; [exact Hc|]. exists r. split; [left; reflexivity | exact Hr].
  - destruct (IH H) as [Hc [r0 [Hr0 Hr]]]. split; [exact Hc|].
    exists r0. split; [right; exact Hr0 | exact Hr].
Qed.

Lemma get_parent_returns_owner_witness :
  child_of (st_heap chain_state) 2 3 /\
  exists r, In r (tree_data chain_state) /\ reach (st_heap chain_state) r 2.
Proof. apply (get_parent_returns_owner 10 chain_state 3 2). vm_compute. reflexivity. Defined.

(** Dropping a root onto another node makes it that node's last child
    but leaves it in [tree_data]: a root is never detached, so it ends up
    both a root and a child. *)
Theorem release_root_stays_root node_eq fuel st x t hits :
  In x (tree_data st) -> get_parent fuel st x = Some None ->
  find_target fuel st x hits = Some (Some t) -> (exists tn, st_heap st !! t = Some tn) ->
  let st' := on_node_release node_eq fuel st x true false hits in
  tree_data st' = tree_data st /\ child_of (st_heap st') t x.
Proof.
  intros _ Hp Hf [tn Ht]. unfold on_node_release. simpl. rewrite Hf.
  unfold reparent. change (get_parent fuel (push_undo st) x) with (get_parent fuel st x).
  rewrite Hp. simpl. rewrite Ht. simpl. split; [reflexivity|].
  exists (mkNode (nid tn) (children tn ++ [x])). rewrite lookup_insert_eq.
  split; [reflexivity|]. simpl. apply in_or_app. right. left. reflexivity.
Qed.

Lemma release_root_stays_root_witness :
  let st' := on_node_release distinct_nodes 10 two_roots_state 3 true false ["2"] in
  tree_data st' = [1; 3] /\ child_of (st_heap st') 2 3.
Proof.
  apply (release_root_stays_root distinct_nodes 10 two_roots_state 3 2 ["2"]).
  - simpl. auto.
  - vm_compute. reflexivity.
  - vm_compute. reflexivity.
  - eexists. vm_compute. reflexivity.
Defined.

(** No drag release (trash, reparent or click) changes the overlay. *)
Theorem release_never_touches_overlay node_eq fuel st x dragging over_trash hits :
  extra_edges (on_node_release node_eq fuel st x dragging over_trash hits) = extra_edges st.
Proof. apply release_edges. Qed.

(** The handlers that write the overlay keep it free of self loops and
    duplicates: the pending link, the context-menu delete, the removal
    of an extra parent, and drag releases. *)
Theorem overlay_ok_preserved node_eq named fuel st :
  overlay_ok (extra_edges st) ->
  (forall a b, overlay_ok (extra_edges (fst (link_pending st a b)))) /\
  (forall x, overlay_ok (extra_edges (delete_node node_eq fuel st x))) /\
  (forall c confirm pick, overlay_ok (extra_edges (delete_extra_parent named fuel st c confirm pick))) /\
  (forall x d o hits, overlay_ok (extra_edges (on_node_release node_eq fuel st x d o hits))).
Proof.
  intros Hok. split; [|split; [|split]].
  - intros a b. unfold link_pending.
    destruct (String.eqb_spec a b) as [_|Hab]; [exact Hok|].
    destruct (existsb (fun e => String.eqb (fst e) a && String.eqb (snd e) b) (extra_edges st))
      eqn:E; [exact Hok|]. simpl.
    destruct Hok as [Hd Hs]. split.
    + apply NoDup_snoc; [exact Hd|]. intros Hin.
      assert (Hex : existsb (fun e => String.eqb (fst e) a && String.eqb (snd e) b)
                      (extra_edges st) = true).
      { apply existsb_exists. exists (a, b). split; [exact Hin|]. simpl.
        rewrite !String.eqb_refl. reflexivity. }
      congruence.
    + apply Forall_app. split; [exact Hs|]. constructor; [exact Hab | constructor].
  - intros x. unfold delete_node.
    destruct (get_parent fuel (push_undo st) x) as [par|]; [|exact Hok].
    destruct (st_heap (detach node_eq (push_undo st) par x) !! x) as [n|];
      [destruct (nid n)|]; simpl; rewrite ?detach_edges; simpl;
      [apply overlay_ok_filter|..]; exact Hok.
  - intros c confirm pick.
    destruct (delete_extra_parent_cases named fuel st c confirm pick) as [E | [p [cid E]]];
      rewrite E; [exact Hok|]. apply overlay_ok_filter. exact Hok.
  - intros. rewrite release_edges. exact Hok.
Qed.

Lemma overlay_ok_preserved_witness :
  (forall a b, overlay_ok (extra_edges (fst (link_pending demo_state a b)))) /\
  (forall x, overlay_ok (extra_edges (delete_node distinct_nodes 10 demo_state x))) /\
  (forall c confirm pick, overlay_ok (extra_edges (delete_extra_parent all_named 10 demo_state c confirm pick))) /\
  (forall x d o hits, overlay_ok (extra_edges (on_node_release distinct_nodes 10 demo_state x d o hits))).
Proof.
  apply overlay_ok_preserved. split.
  - constructor; [intros [] | constructor].
  - constructor; [simpl; discriminate | constructor].
Defined.

(** An overlay edge whose parent id names no node in the forest (as the
    trash deletion leaves behind) cannot be removed by
    [delete_extra_parent]: when every extra parent of the child is such
    a dangling id, the command changes nothing, whatever is answered. *)
Theorem delete_extra_parent_dangling named fuel st c cn cid confirm pick :
  st_heap st !! c = Some cn -> nid cn = Some cid ->
  (forall p, In p (extra_parents cid (extra_edges st)) ->
     get_node_by_id fuel (st_heap st) p (tree_data st) = Some None) ->
  delete_extra_parent named fuel st c confirm pick = st.
Proof.
  intros Hc Hid Hd. unfold delete_extra_parent. rewrite Hc, Hid.
  assert (Hcr : forall p, In p (extra_parents cid (extra_edges st)) ->
                confirm_remove_extra named fuel st c p cid confirm = st).
  { intros p Hp. unfold confirm_remove_extra. rewrite (Hd p Hp). reflexivity. }
  destruct (extra_parents cid (extra_edges st)) as [|p [|p2 ps]] eqn:E; [reflexivity| |].
  - apply Hcr. left. reflexivity.
  - destruct (forallb _ _); [|reflexivity]. destruct pick as [k|]; [|reflexivity].
    destruct (nth_error (p :: p2 :: ps) k) as [q|] eqn:En; [|reflexivity].
    apply Hcr. eapply nth_error_In. exact En.
Qed.

Lemma delete_extra_parent_dangling_witness :
  let st := on_node_release distinct_nodes 10 demo_state 2 true true [] in
  delete_extra_parent all_named 10 st 3 true (Some 0) = st.
Proof.
  apply (delete_extra_parent_dangling all_named 10 _ 3 (mkNode (Some "3") []) "3").
  - vm_compute. reflexivity.
  - reflexivity.
  - intros p Hp. vm_compute in Hp. destruct Hp as [<- | []]. vm_compute. reflexivity.
Defined.

(** Confirming the removal of a child's only extra parent drops every
    copy of that edge and nothing else, after one undo snapshot; the
    child then has no extra parent and the forest is untouched. *)
Theorem delete_extra_parent_single named fuel st c cn cid p pn pick :
  st_heap st !! c = Some cn -> nid cn = Some cid ->
  extra_parents cid (extra_edges st) = [p] ->
  get_node_by_id fuel (st_heap st) p (tree_data st) = Some (Some pn) ->
  named c = true -> named pn = true ->
  let st' := delete_extra_parent named fuel st c true pick in
  (forall e, In e (extra_edges st') <-> In e (extra_edges st) /\ e <> (p, cid)) /\
  extra_parents cid (extra_edges st') = [] /\
  st_heap st' = st_heap st /\ tree_data st' = tree_data st /\
  undo_stack st' = undo_stack st ++ [snap st] /\ redo_stack st' = [].
Proof.
  intros Hc Hid Hps Hp Hnc Hnp. unfold delete_extra_parent. rewrite Hc, Hid, Hps.
  unfold confirm_remove_extra. rewrite Hp, Hnc, Hnp. simpl.
  split; [|split; [|repeat split]].
  - intros [a b]. rewrite filter_In. simpl.
    destruct (String.eqb_spec a p) as [->|Ha]; destruct (String.eqb_spec b cid) as [->|Hb]; simpl.
    + split; intros [_ H]; [discriminate | contradiction H; reflexivity].
    + split; intros [H _]; split; [exact H | congruence | exact H | reflexivity].
    + split; intros [H _]; split; [exact H | congruence | exact H | reflexivity].
    + split; intros [H _]; split; [exact H | congruence | exact H | reflexivity].
  - unfold extra_parents in *.
    assert (Hall : forall e, In e (extra_edges st) -> snd e = cid -> fst e = p).
    { intros e He Hs. assert (Hin : In (fst e) (map fst (List.filter (fun e => String.eqb (snd e) cid)
                                                          (extra_edges st)))).
      { apply in_map. apply filter_In. split; [exact He|]. apply String.eqb_eq. exact Hs. }
      rewrite Hps in Hin. destruct Hin as [<- | []]. reflexivity. }
    clear - Hall. revert Hall. generalize (extra_edges st) as l.
    induction l as [|[a b] l IH]; intros Hall; simpl; [reflexivity|].
    destruct (String.eqb_spec b cid) as [->|Hb].
    + assert (a = p) as -> by exact (Hall (a, cid) (or_introl eq_refl) eq_refl).
      rewrite String.eqb_refl. simpl.
      apply IH. intros e He Hs. apply Hall; [right; exact He | exact Hs].
    + rewrite andb_false_r. simpl. apply String.eqb_neq in Hb. rewrite Hb.
      apply IH. intros e He Hs. apply Hall; [right; exact He | exact Hs].
Qed.

Lemma delete_extra_parent_single_witness :
  let st' := delete_extra_parent all_named 10 demo_state 3 true None in
  (forall e, In e (extra_edges st') <-> In e (extra_edges demo_state) /\ e <> ("2", "3")) /\
  extra_parents "3" (extra_edges st') = [] /\
  st_heap st' = st_heap demo_state /\ tree_data st' = tree_data demo_state /\
  undo_stack st' = undo_stack demo_state ++ [snap demo_state] /\ redo_stack st' = [].
Proof.
  apply (delete_extra_parent_single all_named 10 demo_state 3 (mkNode (Some "3") []) "3" "2" 2 None);
    try reflexivity; vm_compute; reflexivity.
Defined.

(** The context-menu delete keeps the ownership graph acyclic. *)
Theorem delete_node_keeps_acyclic node_eq fuel st x :
  acyclic (st_heap st) -> acyclic (st_heap (delete_node node_eq fuel st x)).
Proof.
  intros Hac. unfold delete_node.
  destruct (get_parent fuel (push_undo st) x) as [par|]; [|exact Hac].
  assert (H2 : acyclic (st_heap (detach node_eq (push_undo st) par x)))
    by (apply detach_acyclic; exact Hac).
  destruct (st_heap (detach node_eq (push_undo st) par x) !! x) as [n|];
    [destruct (nid n)|]; exact H2.
Qed.

Lemma delete_node_keeps_acyclic_witness :
  acyclic (st_heap (delete_node distinct_nodes 10 demo_state 2)).
Proof. apply delete_node_keeps_acyclic. exact demo_acyclic. Defined.

(** The overlay commands (pending link, removal of an extra parent)
    never change the forest: the node cells and the root list stay as
    they were. *)
Theorem overlay_commands_keep_forest named fuel st :
  (forall a b, st_heap (fst (link_pending st a b)) = st_heap st /\
               tree_data (fst (link_pending st a b)) = tree_data st) /\
  (forall c confirm pick,
     st_heap (delete_extra_parent named fuel st c confirm pick) = st_heap st /\
     tree_data (delete_extra_parent named fuel st c confirm pick) = tree_data st).
Proof.
  split.
  - intros a b. unfold link_pending.
    destruct (String.eqb a b); [split; reflexivity|].
    destruct (existsb _ _); split; reflexivity.
  - intros c confirm pick.
    destruct (delete_extra_parent_cases named fuel st c confirm pick) as [E | [p [cid E]]];
      rewrite E; split; reflexivity.
Qed.

(** [is_descendant] decides reachability in the ownership graph: when
    it answers, it answers [True] exactly when the candidate is a node
    reachable from [parent] (itself included); a candidate that is not a
    node ([None], from a failed id lookup) is never a descendant. *)
Theorem is_descendant_decides f h p cand b :
  is_descendant f h p cand = Some b ->
  (b = true <-> exists d, cand = Some d /\ reach h p d).
Proof.
  assert (Htrue : forall f p, is_descendant f h p cand = Some true ->
                  exists d, cand = Some d /\ reach h p d).
  { clear. induction f as [|f IH]; intros p H; simpl in H; [discriminate|].
    case_bool_decide as Hc; [exists p; split; [symmetry; exact Hc | apply rtc_refl]|].
    destruct (h !! p) as [n|] eqn:Hn; [|discriminate].
    assert (Hincl : forall c, In c (children n) -> child_of h p c)
      by (intros c Hc'; exists n; split; assumption).
    revert H Hincl. generalize (children n) as cs.
    induction cs as [|c cs IHcs]; intros H Hincl; [discriminate|].
    destruct (is_descendant f h c cand) as [[|]|] eqn:Ec; try discriminate.
    - destruct (IH c Ec) as [d [Hd Hr]]. exists d. split; [exact Hd|].
      eapply reach_step_l; [apply Hincl; left; reflexivity | exact Hr].
    - apply IHcs; [exact H|]. intros y Hy. apply Hincl. right. exact Hy. }
  intros H. destruct b.
  - split; [intros _; exact (Htrue f p H) | reflexivity].
  - split; [discriminate|]. intros [d [-> Hr]].
    destruct (is_descendant_sound f h p d H Hr).
Qed.

Lemma is_descendant_decides_witness :
  true = true <-> exists d, Some 3 = Some d /\ reach (st_heap chain_state) 1 d.
Proof. apply (is_descendant_decides 10 (st_heap chain_state) 1 (Some 3) true). vm_compute. reflexivity. Defined.

End CanvasExtras.

(** * Further properties of [zoom] *)
Module ViewExtras.
Import View.

(** In exact arithmetic the zoom-out factor 0.9 is not the inverse of
    the zoom-in factor 1.1: an event with positive [delta] followed by
    one with [delta] <= 0 (such as the X11 <Button-4> and <Button-5>
    events, which arrive with delta 0) about the same point leave the
    scale at 99/100 of what it was and pull every item 1/100 of the way
    towards that point. *)
Theorem zoom_in_then_out x y (e1 e2 : wheel) d1 d2 (v : view Q) :
  delta e1 = Some d1 -> (0 < d1)%Z -> delta e2 = Some d2 -> (d2 <= 0)%Z ->
  let v' := qzoom x y e2 (qzoom x y e1 v) in
  Qeq (current_scale v') (current_scale v * (99 # 100)) /\
  Forall2 (fun a b => Qeq (fst b) (x + (99 # 100) * (fst a - x)) /\
                      Qeq (snd b) (y + (99 # 100) * (snd a - y)))
    (coords v) (coords v').
Proof.
  intros E1 H1 E2 H2. unfold qzoom, zoom, scale_factor.
  rewrite E1, E2, (proj2 (Z.ltb_lt 0 d1) H1), (proj2 (Z.ltb_ge 0 d2) H2).
  unfold zoom_at, scale_point. simpl. split; [ring|].
  rewrite map_map. induction (coords v) as [|c cs IH]; simpl; constructor; [|exact IH].
  split; simpl; ring.
Qed.

Lemma zoom_in_then_out_witness :
  let v0 : view Q := mkView 1%Q [(10%Q, 20%Q)] in
  let v' := qzoom 0 0 (x11_button 4) (qzoom 0 0 (mouse_wheel 120) v0) in
  Qeq (current_scale v') (current_scale v0 * (99 # 100)) /\
  Forall2 (fun a b => Qeq (fst b) (0 + (99 # 100) * (fst a - 0)) /\
                      Qeq (snd b) (0 + (99 # 100) * (snd a - 0)))
    (coords v0) (coords v').
Proof.
  exact (zoom_in_then_out 0 0 (mouse_wheel 120) (x11_button 4) 120 0 (mkView 1%Q [(10%Q, 20%Q)])
           eq_refl ltac:(lia) eq_refl ltac:(lia)).
Defined.

End ViewExtras.
